(** * Drag & drop exercise builder: placement and scoring model

    A shallow embedding of the exercise model of the drag-and-drop builder
    (the [DragDropExerciseV1] / [ItemPlacement] types and the builder
    component's accessors, handlers and persistence helpers), together with
    the properties its specification states about them.

    Conventions.
    - JavaScript arrays are lists; [Array.prototype.filter], [map],
      [includes] and [find] are stdpp's [filter], [fmap], list membership
      and [list_find].
    - A [Set<string>] is a [gset string]; [localStorage] is a
      [gmap string string].
    - An optional field ([field?: T]) is an [option]; [string | null] is an
      [option string] with [None] for [null].
    - [points] is an integer ([Z]): the editor produces it with [parseInt].
    - React state is threaded explicitly: a handler maps the previous
      state to the next one, exactly as its functional updaters do. *)

From Stdlib Require Import Ascii String.
From stdpp Require Import base decidable option numbers list strings gmap.

Open Scope Z_scope.

(* ===================================================================== *)
(** ** Data model ([types/dragdrop.ts]) *)
(* ===================================================================== *)

Inductive Scoring := AllOrNothing | PerItem | NoScoring.

#[global] Instance Scoring_eq_dec : EqDecision Scoring.
Proof. solve_decision. Defined.

Module Settings.
Record t := mk {
  shuffleItems : bool;
  allowMultiplePerZone : bool;
  snapToZone : bool;
  scoring : Scoring;
  showInstantFeedback : bool;
  backgroundColor : option string;
  contentBackgroundColor : option string;
  zoneBackgroundColor : option string;
  zoneTextColor : option string;
  zoneBorderColor : option string
}.

#[global] Instance eq_dec : EqDecision t.
Proof. solve_decision. Defined.
End Settings.

Module Zone.
Record t := mk {
  id : string;
  title : string;
  description : option string;
  accepts : option (list string);
  color : option string
}.

#[global] Instance eq_dec : EqDecision t.
Proof. solve_decision. Defined.
End Zone.

Module Feedback.
Record t := mk {
  correct : option string;
  incorrect : option string
}.

#[global] Instance eq_dec : EqDecision t.
Proof. solve_decision. Defined.
End Feedback.

Module Item.
Record t := mk {
  id : string;
  text : string;
  color : option string;
  correctZoneId : string;
  altCorrectZoneIds : option (list string);
  points : option Z;
  feedback : option Feedback.t
}.

#[global] Instance eq_dec : EqDecision t.
Proof. solve_decision. Defined.
End Item.

(** [DragDropExerciseV1]; the [version] field is the constant 1. *)
Record DragDropExerciseV1 := mkExercise {
  instructions : option string;
  settings : Settings.t;
  zones : list Zone.t;
  items : list Item.t
}.

(** [ItemPlacement]: [zoneId = None] is the source's [null] (unassigned). *)
Record ItemPlacement := mkPlacement {
  itemId : string;
  zoneId : option string
}.

#[global] Instance ItemPlacement_eq_dec : EqDecision ItemPlacement.
Proof. solve_decision. Defined.

(** The two pieces of React state the model is about. *)
Record Builder := mkBuilder {
  exercise : DragDropExerciseV1;
  placements : list ItemPlacement
}.

(* ===================================================================== *)
(** ** Exercise constructors *)
(* ===================================================================== *)

Definition defaultSettings : Settings.t :=
  Settings.mk true true true PerItem true (Some "#ffffff") None None None None.

Definition createEmptyExercise : DragDropExerciseV1 :=
  {| instructions := Some "";
     settings := defaultSettings;
     zones := [];
     items := [] |}.

(* ===================================================================== *)
(** ** Placement accessors *)
(* ===================================================================== *)

(** [getZoneItems]: the ids placed in [zone], then the exercise's items
    whose id is among them. *)
Definition getZoneItems (ex : DragDropExerciseV1) (ps : list ItemPlacement)
    (zone : string) : list Item.t :=
  let zoneItemIds := itemId <$> filter (λ p, zoneId p = Some zone) ps in
  filter (λ item, Item.id item ∈ zoneItemIds) (items ex).

(** [getUnassignedItems]: the ids with a non-null zone, then the items
    whose id is not among them. *)
Definition getUnassignedItems (ex : DragDropExerciseV1)
    (ps : list ItemPlacement) : list Item.t :=
  let assignedItemIds := itemId <$> filter (λ p, zoneId p ≠ None) ps in
  filter (λ item, ¬ (Item.id item ∈ assignedItemIds)) (items ex).

(** [handleDragEnd]: [over = None] is a drop outside every droppable;
    the droppable named ["unassigned"] stands for the null zone. The
    updater passed to [setPlacements] is [applyPlacement]. *)
Definition applyPlacement (item : string) (newZoneId : option string)
    (prev : list ItemPlacement) : list ItemPlacement :=
  (λ p, if decide (itemId p = item)
        then {| itemId := itemId p; zoneId := newZoneId |}
        else p) <$> prev.

Definition dropTarget (over_id : string) : option string :=
  if decide (over_id = "unassigned") then None else Some over_id.

Definition handleDragEnd (active_id : string) (over : option string)
    (prev : list ItemPlacement) : list ItemPlacement :=
  match over with
  | None => prev
  | Some over_id => applyPlacement active_id (dropTarget over_id) prev
  end.

(* ===================================================================== *)
(** ** Scoring ([calculateScore]) *)
(* ===================================================================== *)

Record Score := mkScore {
  correct : gset string;
  totalPoints : Z;
  earnedPoints : Z
}.

(** [item.points || 1]: an absent or zero point value counts as 1. *)
Definition pointsOf (item : Item.t) : Z :=
  match Item.points item with
  | Some p => if decide (p = 0) then 1 else p
  | None => 1
  end.

(** [placements.find(p => p.itemId === item.id)]. *)
Definition findPlacement (ps : list ItemPlacement) (item : Item.t)
    : option ItemPlacement :=
  snd <$> list_find (λ p, itemId p = Item.id item) ps.

(** [placement?.zoneId]: [None] when there is no record or the zone is
    null (neither is [===] to a string, and both are falsy). *)
Definition placedZone (ps : list ItemPlacement) (item : Item.t)
    : option string :=
  findPlacement ps item ≫= zoneId.

(** The condition of the [if] in the loop body:
    [placement?.zoneId === item.correctZoneId ||
     item.altCorrectZoneIds?.includes(placement?.zoneId || '')]. *)
Definition isCorrect (ps : list ItemPlacement) (item : Item.t) : bool :=
  bool_decide (placedZone ps item = Some (Item.correctZoneId item))
  || match Item.altCorrectZoneIds item with
     | Some alt => bool_decide (default "" (placedZone ps item) ∈ alt)
     | None => false
     end.

(** One iteration of [exercise.items.forEach]. *)
Definition scoreItem (ps : list ItemPlacement) (acc : Score) (item : Item.t)
    : Score :=
  let total := totalPoints acc + pointsOf item in
  if isCorrect ps item
  then {| correct := {[Item.id item]} ∪ correct acc;
          totalPoints := total;
          earnedPoints := earnedPoints acc + pointsOf item |}
  else {| correct := correct acc;
          totalPoints := total;
          earnedPoints := earnedPoints acc |}.

Definition calculateScore (ex : DragDropExerciseV1) (ps : list ItemPlacement)
    : Score :=
  foldl (scoreItem ps) {| correct := ∅; totalPoints := 0; earnedPoints := 0 |}
        (items ex).

(* ===================================================================== *)
(** ** Validation ([getValidationErrors]) *)
(* ===================================================================== *)

Definition dquote : string := String "034"%char EmptyString.

Section Validation.
(** [String.prototype.toLowerCase], left abstract. *)
Variable toLowerCase : string → string.

Definition invalidCorrectZone (ex : DragDropExerciseV1) (item : Item.t)
    : Prop :=
  Item.correctZoneId item = ""
  ∨ list_find (λ z, Zone.id z = Item.correctZoneId item) (zones ex) = None.

Definition pushItemError (ex : DragDropExerciseV1) (errors : list string)
    (item : Item.t) : list string :=
  if decide (invalidCorrectZone ex item)
  then errors ++ ["Item " +:+ dquote +:+ Item.text item +:+ dquote
                            +:+ " has invalid correct zone"]
  else errors.

Definition getValidationErrors (ex : DragDropExerciseV1) : list string :=
  let errors := [] in
  let errors :=
    if decide (length (zones ex) = 0%nat)
    then errors ++ ["At least one zone is required"] else errors in
  let errors :=
    if decide (length (items ex) = 0%nat)
    then errors ++ ["At least one item is required"] else errors in
  let errors := foldl (pushItemError ex) errors (items ex) in
  let zoneTitles := (λ z, toLowerCase (Zone.title z)) <$> zones ex in
  let errors :=
    if decide (size (list_to_set zoneTitles : gset string)
               ≠ length zoneTitles)
    then errors ++ ["Zone titles must be unique"] else errors in
  errors.
End Validation.

(** An ASCII instance of [toLowerCase], used to run the validator. *)
Definition lower_ascii (c : ascii) : ascii :=
  let n := Ascii.nat_of_ascii c in
  if decide (65 ≤ n ∧ n ≤ 90)%nat then Ascii.ascii_of_nat (n + 32) else c.

Fixpoint asciiToLowerCase (s : string) : string :=
  match s with
  | EmptyString => EmptyString
  | String c s' => String (lower_ascii c) (asciiToLowerCase s')
  end.

(* ===================================================================== *)
(** ** State-changing handlers of the builder *)
(* ===================================================================== *)

(** [{ ...zone, id }] and [{ ...item, id }]: a draft ([Omit<_, 'id'>])
    completed with an id. *)
Definition Zone_withId (draft : Zone.t) (i : string) : Zone.t :=
  Zone.mk i (Zone.title draft) (Zone.description draft) (Zone.accepts draft)
          (Zone.color draft).

Definition Item_withId (draft : Item.t) (i : string) : Item.t :=
  Item.mk i (Item.text draft) (Item.color draft) (Item.correctZoneId draft)
          (Item.altCorrectZoneIds draft) (Item.points draft)
          (Item.feedback draft).

(** [{ ...item, correctZoneId: z }]. *)
Definition Item_withCorrectZoneId (item : Item.t) (z : string) : Item.t :=
  Item.mk (Item.id item) (Item.text item) (Item.color item) z
          (Item.altCorrectZoneIds item) (Item.points item)
          (Item.feedback item).

(** [items.map(item => ({ itemId: item.id, zoneId: null }))]. *)
Definition initialPlacements (its : list Item.t) : list ItemPlacement :=
  (λ item, {| itemId := Item.id item; zoneId := None |}) <$> its.

(** The [then] callback of the load effect. *)
Definition onLoaded (loaded : DragDropExerciseV1) (s : Builder) : Builder :=
  {| exercise := loaded; placements := initialPlacements (items loaded) |}.

(** [createSampleExercise], with the six [uuidv4()] results as inputs. *)
Definition createSampleExercise (z1 z2 i1 i2 i3 i4 : string)
    : DragDropExerciseV1 :=
  {| instructions := Some "Drag each item to its correct category.";
     settings := defaultSettings;
     zones :=
       [ Zone.mk z1 "Fruits" (Some "Natural sweet foods") None (Some "#10B981");
         Zone.mk z2 "Vegetables" (Some "Nutritious plant foods") None
                 (Some "#F59E0B") ];
     items :=
       [ Item.mk i1 "Apple" None "" None (Some 1) None;
         Item.mk i2 "Carrot" None "" None (Some 1) None;
         Item.mk i3 "Banana" None "" None (Some 1) None;
         Item.mk i4 "Broccoli" None "" None (Some 1) None ] |}.

(** [sample.items[k].correctZoneId = sample.zones[j].id]; both indices are
    in range on the sample, elsewhere the assignment is skipped. *)
Definition setCorrectZone (k j : nat) (ex : DragDropExerciseV1)
    : DragDropExerciseV1 :=
  match items ex !! k, zones ex !! j with
  | Some item, Some z =>
      {| instructions := instructions ex;
         settings := settings ex;
         zones := zones ex;
         items := <[k := Item_withCorrectZoneId item (Zone.id z)]> (items ex) |}
  | _, _ => ex
  end.

Definition loadSampleData (z1 z2 i1 i2 i3 i4 : string) (s : Builder)
    : Builder :=
  let sample := createSampleExercise z1 z2 i1 i2 i3 i4 in
  let sample := setCorrectZone 0 0 sample in
  let sample := setCorrectZone 1 1 sample in
  let sample := setCorrectZone 2 0 sample in
  let sample := setCorrectZone 3 1 sample in
  {| exercise := sample; placements := initialPlacements (items sample) |}.

(** [onSave] of the zone editor; [fresh] is the [uuidv4()] result. *)
Definition saveZone (editingZone : option Zone.t) (draft : Zone.t)
    (fresh : string) (s : Builder) : Builder :=
  let prev := exercise s in
  let zones' :=
    match editingZone with
    | Some ez =>
        (λ z, if decide (Zone.id z = Zone.id ez)
              then Zone_withId draft (Zone.id ez) else z) <$> zones prev
    | None => zones prev ++ [Zone_withId draft fresh]
    end in
  {| exercise := {| instructions := instructions prev;
                    settings := settings prev;
                    zones := zones';
                    items := items prev |};
     placements := placements s |}.

(** The zone's delete button. *)
Definition deleteZone (zone : Zone.t) (s : Builder) : Builder :=
  let prev := exercise s in
  {| exercise :=
       {| instructions := instructions prev;
          settings := settings prev;
          zones := filter (λ z, Zone.id z ≠ Zone.id zone) (zones prev);
          items :=
            (λ item, if decide (Item.correctZoneId item = Zone.id zone)
                     then Item_withCorrectZoneId item ""
                     else item) <$> items prev |};
     placements :=
       (λ p, if decide (zoneId p = Some (Zone.id zone))
             then {| itemId := itemId p; zoneId := None |}
             else p) <$> placements s |}.

(** [onSave] of the item editor; [fresh] is the [uuidv4()] result. *)
Definition saveItem (editingItem : option Item.t) (draft : Item.t)
    (fresh : string) (s : Builder) : Builder :=
  let prev := exercise s in
  match editingItem with
  | Some ei =>
      {| exercise :=
           {| instructions := instructions prev;
              settings := settings prev;
              zones := zones prev;
              items :=
                (λ i, if decide (Item.id i = Item.id ei)
                      then Item_withId draft (Item.id ei) else i)
                  <$> items prev |};
         placements := placements s |}
  | None =>
      let newItem := Item_withId draft fresh in
      {| exercise :=
           {| instructions := instructions prev;
              settings := settings prev;
              zones := zones prev;
              items := items prev ++ [newItem] |};
         placements :=
           placements s ++ [{| itemId := Item.id newItem; zoneId := None |}] |}
  end.

(** The item's delete button. *)
Definition deleteItem (item : Item.t) (s : Builder) : Builder :=
  let prev := exercise s in
  {| exercise :=
       {| instructions := instructions prev;
          settings := settings prev;
          zones := zones prev;
          items := filter (λ i, Item.id i ≠ Item.id item) (items prev) |};
     placements := filter (λ p, itemId p ≠ Item.id item) (placements s) |}.

(** The settings tab: instructions and settings fields only. *)
Definition editSettings (instr : option string) (st : Settings.t)
    (s : Builder) : Builder :=
  let prev := exercise s in
  {| exercise := {| instructions := instr;
                    settings := st;
                    zones := zones prev;
                    items := items prev |};
     placements := placements s |}.

(** Every event that changes [exercise] or [placements]. *)
Inductive Action :=
| Loaded (loaded : DragDropExerciseV1)
| LoadSample (z1 z2 i1 i2 i3 i4 : string)
| DragEnd (active_id : string) (over : option string)
| SaveZone (editingZone : option Zone.t) (draft : Zone.t) (fresh : string)
| DeleteZone (zone : Zone.t)
| SaveItem (editingItem : option Item.t) (draft : Item.t) (fresh : string)
| DeleteItem (item : Item.t)
| EditSettings (instr : option string) (st : Settings.t).

Definition dispatch (a : Action) (s : Builder) : Builder :=
  match a with
  | Loaded loaded => onLoaded loaded s
  | LoadSample z1 z2 i1 i2 i3 i4 => loadSampleData z1 z2 i1 i2 i3 i4 s
  | DragEnd active_id over =>
      {| exercise := exercise s;
         placements := handleDragEnd active_id over (placements s) |}
  | SaveZone ez draft fresh => saveZone ez draft fresh s
  | DeleteZone zone => deleteZone zone s
  | SaveItem ei draft fresh => saveItem ei draft fresh s
  | DeleteItem item => deleteItem item s
  | EditSettings instr st => editSettings instr st s
  end.

(** The component's initial state: [useState(createEmptyExercise())] and
    [useState([])]. *)
Definition initialBuilder : Builder :=
  {| exercise := createEmptyExercise; placements := [] |}.

Definition run (acts : list Action) (s : Builder) : Builder :=
  foldl (λ s a, dispatch a s) s acts.

(* ===================================================================== *)
(** ** Persistence ([saveExercise]) *)
(* ===================================================================== *)

Record Request := mkRequest {
  url : string;
  method : string;
  body : string
}.

(** What [await fetch(...)] does: it resolves with a response whose [ok]
    flag is given, or it rejects (transport failure). *)
Inductive FetchOutcome :=
| Responded (ok : bool)
| Rejected (reason : string).

Record Toast := mkToast {
  variant : option string;
  toastTitle : string;
  toastDescription : string
}.

(** The part of the browser the helper touches. *)
Record World := mkWorld {
  localStorage : gmap string string;
  consoleErrors : list string;
  toasts : list Toast;
  sent : list Request
}.

(** Effectful code: a state transformer whose result is either a thrown
    error ([inl]) or a value ([inr]). For an [async] function [inl] is a
    rejected promise and [inr] a fulfilled one. *)
Definition IO (A : Type) : Type := World → (string + A) * World.

#[global] Instance IO_ret : MRet IO := λ A (a : A) w, (inr a, w).

#[global] Instance IO_bind : MBind IO := λ A B (k : A → IO B) (m : IO A) w,
  match m w with
  | (inr a, w') => k a w'
  | (inl e, w') => (inl e, w')
  end.

Definition throw {A : Type} (e : string) : IO A := λ w, (inl e, w).

(** [try { body } catch (error) { handler }]. *)
Definition tryCatch {A : Type} (body : IO A) (handler : string → IO A) : IO A :=
  λ w, match body w with
       | (inr a, w') => (inr a, w')
       | (inl e, w') => handler e w'
       end.

Definition console_error (msg : string) : IO unit := λ w,
  (inr (), {| localStorage := localStorage w;
              consoleErrors := consoleErrors w ++ [msg];
              toasts := toasts w;
              sent := sent w |}).

Definition toast (t : Toast) : IO unit := λ w,
  (inr (), {| localStorage := localStorage w;
              consoleErrors := consoleErrors w;
              toasts := toasts w ++ [t];
              sent := sent w |}).

(** [localStorage.setItem]; the write is taken to succeed. *)
Definition localStorage_setItem (key value : string) : IO unit := λ w,
  (inr (), {| localStorage := <[key := value]> (localStorage w);
              consoleErrors := consoleErrors w;
              toasts := toasts w;
              sent := sent w |}).

(** [courseId && slideId] on optional strings: absent and empty are falsy. *)
Definition truthy (s : option string) : bool :=
  match s with
  | Some v => bool_decide (v ≠ "")
  | None => false
  end.

Definition slideUrl (courseId slideId : option string) : string :=
  "/api/courses/" +:+ default "" courseId +:+ "/slides/"
    +:+ default "" slideId +:+ "/drag-drop".

Definition storageKey : string := "dragdrop-exercise".

Section Persistence.
(** [JSON.stringify] on exercise documents, and the server's answer to
    each request. *)
Variable JSON_stringify : DragDropExerciseV1 → string.
Variable network : Request → FetchOutcome.

(** [await fetch(url, init)], yielding [response.ok]. *)
Definition fetch (r : Request) : IO bool := λ w,
  let w' := {| localStorage := localStorage w;
               consoleErrors := consoleErrors w;
               toasts := toasts w;
               sent := sent w ++ [r] |} in
  match network r with
  | Responded ok => (inr ok, w')
  | Rejected reason => (inl reason, w')
  end.

Definition saveRequest (ex : DragDropExerciseV1)
    (courseId slideId : option string) : Request :=
  {| url := slideUrl courseId slideId;
     method := "PUT";
     body := JSON_stringify ex |}.

(** [saveExercise]. The [try] block either returns [true] from the
    function ([Some true]) or falls through to the local fallback
    ([None]). *)
Definition saveExercise (ex : DragDropExerciseV1)
    (courseId slideId : option string) : IO bool :=
  returned ←
    (if truthy courseId && truthy slideId
     then tryCatch
            (ok ← fetch (saveRequest ex courseId slideId);
             if negb ok then throw "API save failed"
             else mret (Some true))
            (λ error,
               console_error ("API save error: " +:+ error) ≫= λ _,
               toast {| variant := Some "destructive";
                        toastTitle := "Save Failed";
                        toastDescription :=
                          "Could not save to server. Changes saved locally." |}
                 ≫= λ _,
               mret None)
     else mret None);
  match returned with
  | Some b => mret b
  | None =>
      localStorage_setItem storageKey (JSON_stringify ex) ≫= λ _,
      mret false
  end.
End Persistence.

(* ===================================================================== *)
(** ** Specification vocabulary *)
(* ===================================================================== *)

(** Some placement record of [item] names zone [z]. *)
Definition placedIn (ps : list ItemPlacement) (item : Item.t) (z : string)
    : Prop :=
  Exists (λ p, itemId p = Item.id item ∧ zoneId p = Some z) ps.

(** Some placement record of [item] names a zone (any zone). *)
Definition assigned (ps : list ItemPlacement) (item : Item.t) : Prop :=
  Exists (λ p, itemId p = Item.id item ∧ zoneId p ≠ None) ps.

(** Some placement record of [item] names a zone the exercise lacks. *)
Definition placedInMissingZone (ex : DragDropExerciseV1)
    (ps : list ItemPlacement) (item : Item.t) : Prop :=
  ∃ p z, p ∈ ps ∧ itemId p = Item.id item ∧ zoneId p = Some z
         ∧ z ∉ Zone.id <$> zones ex.

(** Every zone a placement names is a zone of the exercise. *)
Definition placementsInZones (ex : DragDropExerciseV1)
    (ps : list ItemPlacement) : Prop :=
  ∀ p z, p ∈ ps → zoneId p = Some z → z ∈ Zone.id <$> zones ex.

(** What the views show: one collection per zone, in zone order, then the
    unassigned tray. *)
Definition collections (ex : DragDropExerciseV1) (ps : list ItemPlacement)
    : list (list Item.t) :=
  ((λ z, getZoneItems ex ps (Zone.id z)) <$> zones ex)
    ++ [getUnassignedItems ex ps].

(** In how many of the collections [cs] the item occurs. *)
Definition occurrences (item : Item.t) (cs : list (list Item.t)) : nat :=
  length (filter (λ c, item ∈ c) cs).

(** All placement records of [item] (if any) are null. *)
Definition unplaced (ps : list ItemPlacement) (item : Item.t) : Prop :=
  ∀ p, p ∈ ps → itemId p = Item.id item → zoneId p = None.

(** The partition property and the description of the unassigned tray, as
    the specification words them (for arbitrary placement lists). *)
Definition partitionAsStated (ex : DragDropExerciseV1)
    (ps : list ItemPlacement) : Prop :=
  zones ex ≠ [] → items ex ≠ [] →
  ∀ item, item ∈ items ex → occurrences item (collections ex ps) = 1%nat.

Definition unassignedAsStated (ex : DragDropExerciseV1)
    (ps : list ItemPlacement) : Prop :=
  ∀ item, item ∈ getUnassignedItems ex ps
          ↔ item ∈ items ex
            ∧ (unplaced ps item ∨ placedInMissingZone ex ps item).

(** The id sequences of the placement records and of the items agree,
    position by position: one record per item. *)
Definition onePlacementPerItem (s : Builder) : Prop :=
  itemId <$> placements s = Item.id <$> items (exercise s).

Definition Zsum (l : list Z) : Z := foldr Z.add 0 l.

(** The claim's reading of a correct item: its placement names a zone,
    and that zone is the correct one or one of the alternates. *)
Definition placementMatches (ps : list ItemPlacement) (item : Item.t) : Prop :=
  ∃ z, placedZone ps item = Some z
       ∧ (z = Item.correctZoneId item
          ∨ ∃ alt, Item.altCorrectZoneIds item = Some alt ∧ z ∈ alt).

(** Changing only the [correctZoneId] of an item. *)
Definition sameButCorrectZone (item item' : Item.t) : Prop :=
  Item.id item' = Item.id item
  ∧ Item.text item' = Item.text item
  ∧ Item.color item' = Item.color item
  ∧ Item.altCorrectZoneIds item' = Item.altCorrectZoneIds item
  ∧ Item.points item' = Item.points item
  ∧ Item.feedback item' = Item.feedback item.

(* ===================================================================== *)
(** ** Concrete data used in examples *)
(* ===================================================================== *)

Definition zFruits : Zone.t := Zone.mk "Z1" "Fruits" None None None.
Definition zVegetables : Zone.t := Zone.mk "Z2" "Vegetables" None None None.
Definition iApple : Item.t := Item.mk "Apple" "Apple" None "Z1" None (Some 1) None.
Definition iCarrot : Item.t := Item.mk "Carrot" "Carrot" None "Z2" None (Some 1) None.

Definition fruitExercise : DragDropExerciseV1 :=
  {| instructions := None;
     settings := defaultSettings;
     zones := [zFruits; zVegetables];
     items := [iApple; iCarrot] |}.

(** Apple and Carrot both dropped on Fruits. *)
Definition bothInFruits : list ItemPlacement :=
  [ {| itemId := "Apple"; zoneId := Some "Z1" |};
    {| itemId := "Carrot"; zoneId := Some "Z1" |} ].

(** Apple dropped on a zone id the exercise does not have. *)
Definition appleInGhostZone : list ItemPlacement :=
  [ {| itemId := "Apple"; zoneId := Some "Z9" |};
    {| itemId := "Carrot"; zoneId := None |} ].

(** An item whose alternates contain the empty string, left unassigned. *)
Definition iBlankAlt : Item.t :=
  Item.mk "Kiwi" "Kiwi" None "Z1" (Some [""]) (Some 1) None.

Definition blankAltExercise : DragDropExerciseV1 :=
  {| instructions := None;
     settings := defaultSettings;
     zones := [zFruits];
     items := [iBlankAlt] |}.

Definition kiwiUnassigned : list ItemPlacement :=
  [ {| itemId := "Kiwi"; zoneId := None |} ].

Definition placedBoth : Builder :=
  {| exercise := fruitExercise; placements := bothInFruits |}.

(** The notice [saveExercise] raises when the server cannot be reached. *)
Definition saveFailedToast : Toast :=
  {| variant := Some "destructive";
     toastTitle := "Save Failed";
     toastDescription := "Could not save to server. Changes saved locally." |}.

(** A serializer and three servers, to run the persistence helper. *)
Definition idsStringify (ex : DragDropExerciseV1) : string :=
  "{zones:[" +:+ String.concat "," (Zone.id <$> zones ex)
    +:+ "],items:[" +:+ String.concat "," (Item.id <$> items ex) +:+ "]}".

Definition offline (r : Request) : FetchOutcome := Rejected "Failed to fetch".
Definition serverError (r : Request) : FetchOutcome := Responded false.
Definition online (r : Request) : FetchOutcome := Responded true.

Definition freshWorld : World :=
  {| localStorage := ∅; consoleErrors := []; toasts := []; sent := [] |}.

(* ===================================================================== *)
(** ** Loading, auto-save and the save handler *)
(* ===================================================================== *)

(** What [await fetch(url)] does for a read: a response with its [ok]
    flag and its body text, or a rejection. *)
Inductive GetOutcome :=
| GetResponded (ok : bool) (text : string)
| GetRejected (reason : string).

(** [localStorage.getItem]: [None] is the source's [null]. *)
Definition localStorage_getItem (key : string) : IO (option string) := λ w,
  (inr (localStorage w !! key), w).

(** [x || undefined] on a string: the empty string becomes absent. *)
Definition orUndefined (s : string) : option string :=
  if decide (s = "") then None else Some s.

(** [courseId || undefined] on a [string | null]. *)
Definition presentOrUndefined (s : option string) : option string :=
  s ≫= orUndefined.

Section Loading.
(** [JSON.parse] on exercise documents ([None]: it throws), and the
    server's answer to each read. *)
Variable JSON_parse : string → option DragDropExerciseV1.
Variable server : Request → GetOutcome.

Definition loadRequest (courseId slideId : option string) : Request :=
  {| url := slideUrl courseId slideId; method := "GET"; body := "" |}.

(** [await fetch(url)], yielding the response ([ok], body text). *)
Definition fetchGet (r : Request) : IO (bool * string) := λ w,
  let w' := {| localStorage := localStorage w;
               consoleErrors := consoleErrors w;
               toasts := toasts w;
               sent := sent w ++ [r] |} in
  match server r with
  | GetResponded ok text => (inr (ok, text), w')
  | GetRejected reason => (inl reason, w')
  end.

(** [JSON.parse(text)] and [await response.json()]: a value or a thrown
    [SyntaxError]. *)
Definition parseDocument (text : string) : IO DragDropExerciseV1 :=
  match JSON_parse text with
  | Some doc => mret doc
  | None => throw "SyntaxError"
  end.

(** [loadExercise]. The [try] block either returns the parsed response
    from the function ([Some doc]) or falls through to local storage
    ([None]). *)
Definition loadExercise (courseId slideId : option string)
    : IO DragDropExerciseV1 :=
  returned ←
    (if truthy courseId && truthy slideId
     then tryCatch (A := option DragDropExerciseV1)
            (fetchGet (loadRequest courseId slideId)
               ≫= λ response : bool * string,
             if fst response
             then doc ← parseDocument (snd response); mret (Some doc)
             else mret None)
            (λ error,
               console_error ("API load error: " +:+ error) ≫= λ _,
               mret None)
     else mret None);
  match returned with
  | Some doc => mret doc
  | None =>
      saved ← localStorage_getItem storageKey;
      match saved with
      | Some text =>
          if decide (text = "") then mret createEmptyExercise
          else parseDocument text
      | None => mret createEmptyExercise
      end
  end.
End Loading.

Section Saving.
Variable toLowerCase : string → string.
Variable JSON_stringify : DragDropExerciseV1 → string.
Variable network : Request → FetchOutcome.

(** The auto-save effect, run whenever [exercise] changes. *)
Definition autoSave (ex : DragDropExerciseV1) : IO unit :=
  if bool_decide (0 < length (zones ex))%nat
     || bool_decide (0 < length (items ex))%nat
  then localStorage_setItem storageKey (JSON_stringify ex)
  else mret ().

Definition validationFailedToast (first : string) : Toast :=
  {| variant := Some "destructive";
     toastTitle := "Validation Failed";
     toastDescription := first |}.

Definition savedToast (success isSandbox : bool) : Toast :=
  {| variant := None;
     toastTitle := "Exercise Saved";
     toastDescription :=
       if success then "Successfully saved to course slide"
       else if isSandbox then "Saved locally (Sandbox Mode)"
       else "Saved locally due to connection issue" |}.

(** [handleSave]; [courseId] and [slideId] are the URL parameters
    ([string | null]). The [isSaving] flag, which only drives the label
    of the save button, is set before and cleared after the call and is
    not part of the state kept here. *)
Definition handleSave (ex : DragDropExerciseV1)
    (courseId slideId : option string) : IO unit :=
  let isSandbox := negb (truthy courseId) || negb (truthy slideId) in
  match getValidationErrors toLowerCase ex with
  | first :: _ => toast (validationFailedToast first)
  | [] =>
      success ← saveExercise JSON_stringify network ex
                  (presentOrUndefined courseId) (presentOrUndefined slideId);
      toast (savedToast success isSandbox)
  end.
End Saving.

(* ===================================================================== *)
(** ** Feedback shown on items *)
(* ===================================================================== *)




(** The points badge of an item: [item.points && item.points !== 1]. *)
Definition showsPointsBadge (item : Item.t) : bool :=
  match Item.points item with
  | Some p => bool_decide (p ≠ 0) && bool_decide (p ≠ 1)
  | None => false
  end.

(* ===================================================================== *)
(** ** Editor dialogs *)
(* ===================================================================== *)

Record ZoneForm := mkZoneForm {
  zf_title : string;
  zf_description : string;
  zf_color : string
}.

Record ItemForm := mkItemForm {
  if_text : string;
  if_correctZoneId : string;
  if_points : string;
  if_correctFeedback : string;
  if_incorrectFeedback : string;
  if_color : string
}.

Section Editors.
(** [String.prototype.trim], [parseInt] ([None]: [NaN]) and
    [Number.prototype.toString], left abstract. *)
Variable trim : string → string.
Variable parseInt : string → option Z.
Variable numberToString : Z → string.

(** The initial field values of [ZoneEditorModal] ([zone?.title || '']
    and so on). *)
Definition openZoneEditor (zone : option Zone.t) : ZoneForm :=
  {| zf_title := default "" (Zone.title <$> zone);
     zf_description := default "" (zone ≫= Zone.description);
     zf_color := default "" (zone ≫= Zone.color) |}.

(** [handleSave] of [ZoneEditorModal]: the draft handed to [onSave], or
    nothing when the title is blank. *)
Definition zoneEditorSave (f : ZoneForm) : option Zone.t :=
  if decide (trim (zf_title f) = "") then None
  else Some (Zone.mk "" (trim (zf_title f))
                     (orUndefined (trim (zf_description f)))
                     None
                     (orUndefined (trim (zf_color f)))).

(** The initial field values of [ItemEditorModal]. *)
Definition openItemEditor (item : option Item.t) : ItemForm :=
  {| if_text := default "" (Item.text <$> item);
     if_correctZoneId := default "" (Item.correctZoneId <$> item);
     if_points := numberToString (default 1 (pointsOf <$> item));
     if_correctFeedback :=
       default "" ((item ≫= Item.feedback) ≫= Feedback.correct);
     if_incorrectFeedback :=
       default "" ((item ≫= Item.feedback) ≫= Feedback.incorrect);
     if_color := default "" (item ≫= Item.color) |}.

(** [parseInt(points) || 1]. *)
Definition parsePoints (s : string) : Z :=
  match parseInt s with
  | Some n => if decide (n = 0) then 1 else n
  | None => 1
  end.

(** [handleSave] of [ItemEditorModal]: the draft handed to [onSave], or
    nothing when the text is blank or no zone is chosen. *)
Definition itemEditorSave (f : ItemForm) : option Item.t :=
  if decide (trim (if_text f) = "" ∨ if_correctZoneId f = "") then None
  else
    Some (Item.mk "" (trim (if_text f))
            (orUndefined (trim (if_color f)))
            (if_correctZoneId f)
            None
            (Some (parsePoints (if_points f)))
            (if decide (trim (if_correctFeedback f) = ""
                        ∧ trim (if_incorrectFeedback f) = "")
             then None
             else Some {| Feedback.correct :=
                            orUndefined (trim (if_correctFeedback f));
                          Feedback.incorrect :=
                            orUndefined (trim (if_incorrectFeedback f)) |})).

(** Pressing the dialog's button: the builder's [onSave] runs on the
    draft, or nothing happens. *)
Definition submitZone (editingZone : option Zone.t) (f : ZoneForm)
    (fresh : string) (s : Builder) : Builder :=
  match zoneEditorSave f with
  | Some draft => saveZone editingZone draft fresh s
  | None => s
  end.

Definition submitItem (editingItem : option Item.t) (f : ItemForm)
    (fresh : string) (s : Builder) : Builder :=
  match itemEditorSave f with
  | Some draft => saveItem editingItem draft fresh s
  | None => s
  end.
End Editors.

(* ===================================================================== *)
(** ** More specification vocabulary *)
(* ===================================================================== *)

(** The message pushed for an item with an invalid correct zone. *)
Definition itemErrorMessage (item : Item.t) : string :=
  "Item " +:+ dquote +:+ Item.text item +:+ dquote
    +:+ " has invalid correct zone".

(** A drag ends where the page has a droppable: on a zone of the exercise
    or on the unassigned tray (or nowhere). *)
Definition wellTargeted (a : Action) (s : Builder) : Prop :=
  match a with
  | DragEnd _ (Some over_id) =>
      over_id = "unassigned" ∨ over_id ∈ Zone.id <$> zones (exercise s)
  | _ => True
  end.

(** Every action of a run is well targeted in the state it meets. *)
Fixpoint allWellTargeted (acts : list Action) (s : Builder) : Prop :=
  match acts with
  | [] => True
  | a :: rest => wellTargeted a s ∧ allWellTargeted rest (dispatch a s)
  end.

(** The world after a run, and whether it ended normally. *)
Definition worldAfter {A : Type} (r : (string + A) * World) : World := snd r.

Definition returnedNormally {A : Type} (r : (string + A) * World) : Prop :=
  ∃ a, fst r = inr a.

(** Stand-ins used to run the dialogs and the loader on examples. *)
Definition noTrim (s : string) : string := s.

Definition digitParseInt (s : string) : option Z :=
  if decide (s = "1") then Some 1
  else if decide (s = "2") then Some 2
  else if decide (s = "0") then Some 0
  else None.

Definition digitToString (n : Z) : string :=
  if decide (n = 1) then "1" else if decide (n = 2) then "2" else "0".

(** A parser that knows the serialization of the fruit exercise only. *)
Definition fruitParse (text : string) : option DragDropExerciseV1 :=
  if decide (text = idsStringify fruitExercise) then Some fruitExercise
  else None.

Definition fruitServer (r : Request) : GetOutcome :=
  GetResponded true (idsStringify fruitExercise).

Definition brokenServer (r : Request) : GetOutcome :=
  GetResponded false "Internal Server Error".

(** A world whose local storage holds the fruit exercise. *)
Definition storedFruitWorld : World :=
  {| localStorage := {[ storageKey := idsStringify fruitExercise ]};
     consoleErrors := []; toasts := []; sent := [] |}.

Definition iKiwiAlt : Item.t :=
  Item.mk "Kiwi" "Kiwi" None "Z1" (Some ["Z2"]) (Some 2) None.

Definition kiwiExercise : DragDropExerciseV1 :=
  {| instructions := None;
     settings := defaultSettings;
     zones := [zFruits; zVegetables];
     items := [iApple; iKiwiAlt] |}.

(* ===================================================================== *)
(** ** Placement accessors: properties *)
(* ===================================================================== *)

Lemma placedIn_iff ps item z :
  placedIn ps item z
  ↔ ∃ p, p ∈ ps ∧ itemId p = Item.id item ∧ zoneId p = Some z.
Proof. unfold placedIn. rewrite Exists_exists. naive_solver. Qed.

Lemma assigned_iff ps item :
  assigned ps item
  ↔ ∃ p, p ∈ ps ∧ itemId p = Item.id item ∧ zoneId p ≠ None.
Proof. unfold assigned. rewrite Exists_exists. naive_solver. Qed.

Lemma zoneItemIds_placedIn ps item z :
  Item.id item ∈ itemId <$> filter (λ p, zoneId p = Some z) ps
  ↔ placedIn ps item z.
Proof.
  rewrite placedIn_iff, list_elem_of_fmap. split.
  - intros (p & Hid & Hp). apply list_elem_of_filter in Hp as [Hz Hin]. eauto.
  - intros (p & Hin & Hid & Hz). exists p. split; [done |].
    apply list_elem_of_filter. done.
Qed.

Lemma assignedItemIds_assigned ps item :
  Item.id item ∈ itemId <$> filter (λ p, zoneId p ≠ None) ps
  ↔ assigned ps item.
Proof.
  rewrite assigned_iff, list_elem_of_fmap. split.
  - intros (p & Hid & Hp). apply list_elem_of_filter in Hp as [Hz Hin]. eauto.
  - intros (p & Hin & Hid & Hz). exists p. split; [done |].
    apply list_elem_of_filter. done.
Qed.

Lemma elem_of_getZoneItems ex ps z item :
  item ∈ getZoneItems ex ps z ↔ item ∈ items ex ∧ placedIn ps item z.
Proof.
  unfold getZoneItems. rewrite list_elem_of_filter, zoneItemIds_placedIn.
  tauto.
Qed.

Lemma elem_of_getUnassignedItems ex ps item :
  item ∈ getUnassignedItems ex ps ↔ item ∈ items ex ∧ ¬ assigned ps item.
Proof.
  unfold getUnassignedItems.
  rewrite list_elem_of_filter, assignedItemIds_assigned. tauto.
Qed.

Lemma fmap_NoDup_agree {A B : Type} (f : A → B) (l : list A) (x y : A) :
  NoDup (f <$> l) → x ∈ l → y ∈ l → f x = f y → x = y.
Proof.
  induction l as [| a l IH]; simpl; intros Hnd Hx Hy Hf.
  - by apply elem_of_nil in Hx.
  - apply NoDup_cons in Hnd as [Hna Hnd].
    apply elem_of_cons in Hx as [-> | Hx]; apply elem_of_cons in Hy as [-> | Hy].
    + done.
    + exfalso. apply Hna. rewrite Hf. by apply list_elem_of_fmap_2.
    + exfalso. apply Hna. rewrite <- Hf. by apply list_elem_of_fmap_2.
    + by apply IH.
Qed.

Lemma findPlacement_Some ps item p :
  findPlacement ps item = Some p → p ∈ ps ∧ itemId p = Item.id item.
Proof.
  unfold findPlacement. intros H.
  apply fmap_Some in H as ([i q] & Hfind & ->).
  apply list_find_Some in Hfind as (Hl & Hq & _). simpl.
  split; [by eapply list_elem_of_lookup_2 | done].
Qed.

Lemma findPlacement_None ps item :
  findPlacement ps item = None ↔ Item.id item ∉ itemId <$> ps.
Proof.
  unfold findPlacement. rewrite fmap_None, list_find_None, Forall_forall.
  rewrite list_elem_of_fmap. split.
  - intros H (p & Hid & Hin). by apply (H p).
  - intros H p Hin Hid. apply H. eauto.
Qed.

(** With one record per item id, the record [find] returns is the only
    one, so "placed in [z]" is what [calculateScore] reads too. *)
Lemma placedIn_placedZone ps item z :
  NoDup (itemId <$> ps) →
  placedIn ps item z ↔ placedZone ps item = Some z.
Proof.
  intros Hnd. rewrite placedIn_iff. unfold placedZone. split.
  - intros (p & Hin & Hid & Hz).
    destruct (findPlacement ps item) as [q |] eqn:Hq.
    + apply findPlacement_Some in Hq as [Hqin Hqid].
      assert (q = p) as -> by (eapply fmap_NoDup_agree; eauto; congruence).
      done.
    + apply findPlacement_None in Hq. exfalso. apply Hq.
      rewrite <- Hid. by apply list_elem_of_fmap_2.
  - intros H. apply bind_Some in H as (p & Hq & Hz).
    apply findPlacement_Some in Hq as [Hin Hid]. eauto.
Qed.

Lemma getZoneItems_filter_placedIn ex ps z :
  getZoneItems ex ps z = filter (λ item, placedIn ps item z) (items ex).
Proof.
  unfold getZoneItems. apply list_filter_iff.
  intros item. apply zoneItemIds_placedIn.
Qed.

(** C8. [getZoneItems ex ps z] is the exercise's item list filtered by
    "some placement record of the item names zone [z]": exactly those
    items, in the order (and with the multiplicity) of the item list,
    whatever the order of the placement records. *)
Theorem getZoneItems_items_in_order ex ps z :
  getZoneItems ex ps z = filter (λ item, placedIn ps item z) (items ex)
  ∧ getZoneItems ex ps z `sublist_of` items ex
  ∧ ∀ item, item ∈ getZoneItems ex ps z
            ↔ item ∈ items ex
              ∧ ∃ p, p ∈ ps ∧ itemId p = Item.id item ∧ zoneId p = Some z.
Proof.
  split; [| split].
  - unfold getZoneItems. apply list_filter_iff.
    intros item. apply zoneItemIds_placedIn.
  - apply sublist_filter.
  - intros item. by rewrite elem_of_getZoneItems, placedIn_iff.
Qed.

(** The result does not depend on the order of the placement records. *)
Lemma getZoneItems_Permutation ex ps ps' z :
  ps ≡ₚ ps' → getZoneItems ex ps z = getZoneItems ex ps' z.
Proof.
  intros Hp. unfold getZoneItems. apply list_filter_iff. intros item.
  rewrite !zoneItemIds_placedIn, !placedIn_iff.
  split; intros (p & Hin & H); exists p; (split; [| done]).
  - by rewrite <- Hp.
  - by rewrite Hp.
Qed.

Example getZoneItems_fruits :
  getZoneItems fruitExercise bothInFruits "Z1" = [iApple; iCarrot]
  ∧ getZoneItems fruitExercise (reverse bothInFruits) "Z1" = [iApple; iCarrot]
  ∧ getZoneItems fruitExercise bothInFruits "Z2" = [].
Proof. by vm_compute. Qed.

Lemma elem_of_getUnassignedItems_records ex ps item :
  item ∈ getUnassignedItems ex ps
  ↔ item ∈ items ex
    ∧ ∀ p, p ∈ ps → itemId p = Item.id item → zoneId p = None.
Proof.
  rewrite elem_of_getUnassignedItems, assigned_iff.
  split; intros [Hin H]; (split; [done |]).
  - intros p Hp Hid. destruct (zoneId p) eqn:Hz; [| done].
    exfalso. apply H. exists p. rewrite Hz. done.
  - intros (p & Hp & Hid & Hz). by apply Hz, H.
Qed.

(** C3 (as the code has it). [getUnassignedItems ex ps] is the exercise's
    item list filtered by "no placement record of the item names a zone":
    the items whose records are all null, and the items without a record.
    The zone list is not consulted. *)
Theorem getUnassignedItems_no_zone_named ex ps :
  getUnassignedItems ex ps = filter (λ item, ¬ assigned ps item) (items ex)
  ∧ ∀ item, item ∈ getUnassignedItems ex ps
            ↔ item ∈ items ex
              ∧ ∀ p, p ∈ ps → itemId p = Item.id item → zoneId p = None.
Proof.
  split.
  - unfold getUnassignedItems. apply list_filter_iff. intros item.
    by rewrite assignedItemIds_assigned.
  - intros item. apply elem_of_getUnassignedItems_records.
Qed.

(** C3 as stated fails: an item placed in a zone the exercise does not
    have is not returned by [getUnassignedItems]. *)
Lemma getUnassignedItems_omits_ghost_zone :
  ¬ unassignedAsStated fruitExercise appleInGhostZone.
Proof.
  intros H. specialize (H iApple).
  assert (iApple ∉ getUnassignedItems fruitExercise appleInGhostZone) as Hno
    by compute_done.
  apply Hno, H. split; [compute_done |]. right.
  exists {| itemId := "Apple"; zoneId := Some "Z9" |}, "Z9".
  split; [by left |]. do 2 (split; [done |]). compute_done.
Qed.

(** When every placed zone exists (what zone deletion maintains), the two
    readings of "unassigned" coincide. *)
Lemma getUnassignedItems_zones_present ex ps item :
  placementsInZones ex ps →
  item ∈ getUnassignedItems ex ps
  ↔ item ∈ items ex
    ∧ (unplaced ps item ∨ placedInMissingZone ex ps item).
Proof.
  intros Hz. rewrite elem_of_getUnassignedItems_records.
  split; [intros [Hin Hnull]; split; [done | by left] |].
  intros [Hin [Hnull | (p & z & Hp & _ & Hzp & Hno)]]; [done |].
  exfalso. eauto.
Qed.

(* --------------------------------------------------------------------- *)
(** *** The accessors partition the items *)
(* --------------------------------------------------------------------- *)

Lemma filter_none {A : Type} (P : A → Prop) `{∀ x, Decision (P x)}
    (l : list A) :
  (∀ x, x ∈ l → ¬ P x) → filter P l = [].
Proof.
  induction l as [| a l IH]; intros Hno; [done |].
  rewrite filter_cons_False by (apply Hno; left).
  apply IH. intros x Hx. apply Hno. by right.
Qed.

Lemma length_filter_single {A B : Type} `{EqDecision B} (f : A → B)
    (l : list A) (x : B) :
  NoDup (f <$> l) → x ∈ f <$> l →
  length (filter (λ y, f y = x) l) = 1%nat.
Proof.
  induction l as [| a l IH]; simpl; intros Hnd Hx.
  - by apply elem_of_nil in Hx.
  - apply NoDup_cons in Hnd as [Hna Hnd].
    destruct (decide (f a = x)) as [Heq | Hne].
    + rewrite filter_cons_True by done. simpl. f_equal.
      rewrite filter_none; [done |].
      intros y Hy Hfy. apply Hna. rewrite Heq, <- Hfy.
      by apply list_elem_of_fmap_2.
    + rewrite filter_cons_False by done.
      apply elem_of_cons in Hx as [Hx | Hx]; [congruence |]. by apply IH.
Qed.

Lemma count_zone_collections ex ps item (zs : list Zone.t) :
  item ∈ items ex →
  length (filter (λ c, item ∈ c)
                 ((λ z, getZoneItems ex ps (Zone.id z)) <$> zs))
  = length (filter (λ z, placedIn ps item (Zone.id z)) zs).
Proof.
  intros Hin. induction zs as [| z zs IH]; [done |].
  rewrite fmap_cons, !filter_cons.
  destruct (decide (item ∈ getZoneItems ex ps (Zone.id z))) as [H | H];
    destruct (decide (placedIn ps item (Zone.id z))) as [H' | H'];
    rewrite elem_of_getZoneItems in H; simpl; try tauto; by rewrite IH.
Qed.

Lemma occurrences_collections ex ps item :
  item ∈ items ex →
  occurrences item (collections ex ps)
  = (length (filter (λ z, placedIn ps item (Zone.id z)) (zones ex))
     + if decide (assigned ps item) then 0 else 1)%nat.
Proof.
  intros Hin. unfold occurrences, collections.
  rewrite filter_app, length_app, count_zone_collections by done.
  f_equal. rewrite filter_cons, filter_nil.
  destruct (decide (item ∈ getUnassignedItems ex ps)) as [H | H];
    destruct (decide (assigned ps item)) as [H' | H'];
    rewrite elem_of_getUnassignedItems in H; simpl; tauto.
Qed.

Lemma assigned_placedIn ps item :
  assigned ps item ↔ ∃ z, placedIn ps item z.
Proof.
  rewrite assigned_iff. setoid_rewrite placedIn_iff. split.
  - intros (p & Hin & Hid & Hz). destruct (zoneId p) as [z |] eqn:E; [| done].
    exists z, p. done.
  - intros (z & p & Hin & Hid & Hz). exists p. by rewrite Hz.
Qed.

Lemma occurrences_partition ex ps item :
  NoDup (Zone.id <$> zones ex) →
  NoDup (itemId <$> ps) →
  placementsInZones ex ps →
  item ∈ items ex →
  occurrences item (collections ex ps) = 1%nat.
Proof.
  intros Hzs Hps Hvalid Hin. rewrite occurrences_collections by done.
  destruct (decide (assigned ps item)) as [Ha | Hna].
  - apply assigned_placedIn in Ha as [z Hz]. rewrite Nat.add_0_r.
    rewrite (list_filter_iff _ (λ z', Zone.id z' = z)).
    + apply length_filter_single; [done |].
      apply placedIn_iff in Hz as (p & Hp & _ & Hzp). by eapply Hvalid.
    + intros z'. rewrite !placedIn_placedZone in * by done.
      rewrite Hz. naive_solver.
  - rewrite filter_none; [done |].
    intros z _ Hz. apply Hna, assigned_placedIn. eauto.
Qed.

(** C2 (as the code has it). When zone ids are pairwise distinct, there is
    at most one placement record per item id, and every zone a placement
    names is a zone of the exercise, each item of the exercise occurs in
    exactly one of the collections: the per-zone lists and the unassigned
    tray. *)
Theorem placements_partition_items ex ps item :
  zones ex ≠ [] → items ex ≠ [] →
  NoDup (Zone.id <$> zones ex) →
  NoDup (itemId <$> ps) →
  placementsInZones ex ps →
  item ∈ items ex →
  occurrences item (collections ex ps) = 1%nat.
Proof. intros _ _. apply occurrences_partition. Qed.

Lemma placements_partition_items_witness :
  occurrences iCarrot (collections fruitExercise bothInFruits) = 1%nat.
Proof.
  apply (placements_partition_items fruitExercise bothInFruits iCarrot).
  - done.
  - done.
  - compute_done.
  - compute_done.
  - intros p z Hp Hz. unfold bothInFruits in Hp.
    repeat (apply elem_of_cons in Hp as [-> | Hp]); simpl in Hz;
      try (by apply elem_of_nil in Hp);
      injection Hz as <-; compute_done.
  - compute_done.
Defined.

(** The other two conditions are needed as well: with two zones sharing
    an id, or with two records for one item, an item shows up twice. *)
Example shared_zone_id_item_in_two_collections :
  occurrences iApple
    (collections
       {| instructions := None; settings := defaultSettings;
          zones := [zFruits; Zone.mk "Z1" "Berries" None None None];
          items := [iApple] |}
       [ {| itemId := "Apple"; zoneId := Some "Z1" |} ]) = 2%nat.
Proof. reflexivity. Qed.

Example two_records_item_in_two_collections :
  occurrences iApple
    (collections fruitExercise
       [ {| itemId := "Apple"; zoneId := Some "Z1" |};
         {| itemId := "Apple"; zoneId := Some "Z2" |} ]) = 2%nat.
Proof. reflexivity. Qed.

(** C2 as stated fails: an item placed in a zone the exercise does not
    have occurs in none of the collections. *)
Lemma ghost_zone_item_in_no_collection :
  ¬ partitionAsStated fruitExercise appleInGhostZone.
Proof.
  intros H. specialize (H ltac:(done) ltac:(done) iApple ltac:(compute_done)).
  vm_compute in H. discriminate H.
Qed.

(* ===================================================================== *)
(** ** Drag end: properties *)
(* ===================================================================== *)

Lemma applyPlacement_itemIds i target ps :
  itemId <$> applyPlacement i target ps = itemId <$> ps.
Proof.
  unfold applyPlacement. rewrite <- list_fmap_compose.
  apply list_fmap_ext. intros _ p _. simpl. by case_decide.
Qed.

Lemma applyPlacement_lookup i target ps k :
  applyPlacement i target ps !! k
  = (λ p, if decide (itemId p = i)
          then {| itemId := itemId p; zoneId := target |} else p)
      <$> ps !! k.
Proof. unfold applyPlacement. apply list_lookup_fmap. Qed.

Lemma elem_of_applyPlacement i target ps q :
  q ∈ applyPlacement i target ps
  ↔ ∃ p, p ∈ ps
         ∧ q = if decide (itemId p = i)
               then {| itemId := itemId p; zoneId := target |} else p.
Proof.
  unfold applyPlacement. rewrite list_elem_of_fmap.
  split; intros (p & H1 & H2); exists p; done.
Qed.

Lemma applyPlacement_absent i target ps :
  i ∉ itemId <$> ps → applyPlacement i target ps = ps.
Proof.
  intros Hno. unfold applyPlacement.
  rewrite <- (list_fmap_id ps) at 2. apply list_fmap_ext.
  intros k p Hp. simpl. case_decide as Hid; [| done].
  exfalso. apply Hno. rewrite <- Hid.
  by eapply list_elem_of_fmap_2, list_elem_of_lookup_2.
Qed.

Lemma applyPlacement_twice i t1 t2 ps :
  applyPlacement i t2 (applyPlacement i t1 ps) = applyPlacement i t2 ps.
Proof.
  unfold applyPlacement. rewrite <- list_fmap_compose.
  apply list_fmap_ext. intros _ p _. simpl.
  destruct (decide (itemId p = i)); simpl; by case_decide.
Qed.

Lemma applyPlacement_None_unplaced ps item :
  unplaced (applyPlacement (Item.id item) None ps) item.
Proof.
  intros q Hq Hid. apply elem_of_applyPlacement in Hq as (p & _ & ->).
  case_decide as Hp; [done |]. by destruct Hp.
Qed.

(** C4. Dropping an item on a zone and then on the unassigned tray puts
    the item in [getUnassignedItems]; and repeating a drop with the same
    target changes nothing more. Both are stated for the updater
    ([applyPlacement]) and for the event handler ([handleDragEnd], where
    the null target is the droppable named "unassigned"). *)
Theorem unassign_after_placement_and_idempotent ex ps item z :
  item ∈ items ex →
  Item.id item ∈ itemId <$> ps →
  item ∈ getUnassignedItems ex
           (applyPlacement (Item.id item) None
              (applyPlacement (Item.id item) (Some z) ps))
  ∧ item ∈ getUnassignedItems ex
             (handleDragEnd (Item.id item) (Some "unassigned")
                (handleDragEnd (Item.id item) (Some z) ps))
  ∧ (∀ i target,
       applyPlacement i target (applyPlacement i target ps)
       = applyPlacement i target ps)
  ∧ (∀ i over,
       handleDragEnd i over (handleDragEnd i over ps)
       = handleDragEnd i over ps).
Proof.
  intros Hin _. split; [| split; [| split]].
  - apply elem_of_getUnassignedItems_records. split; [done |].
    apply applyPlacement_None_unplaced.
  - apply elem_of_getUnassignedItems_records. split; [done |].
    apply applyPlacement_None_unplaced.
  - intros i target. apply applyPlacement_twice.
  - intros i [over_id |]; [| done]. apply applyPlacement_twice.
Qed.

Lemma unassign_after_placement_and_idempotent_witness :
  iCarrot ∈ getUnassignedItems fruitExercise
              (handleDragEnd "Carrot" (Some "unassigned")
                 (handleDragEnd "Carrot" (Some "Z2") bothInFruits)).
Proof.
  apply (unassign_after_placement_and_idempotent
           fruitExercise bothInFruits iCarrot "Z2"); compute_done.
Defined.

Example drag_carrot :
  handleDragEnd "Carrot" (Some "Z2") bothInFruits
  = [ {| itemId := "Apple"; zoneId := Some "Z1" |};
      {| itemId := "Carrot"; zoneId := Some "Z2" |} ]
  ∧ handleDragEnd "Carrot" (Some "unassigned") bothInFruits
    = [ {| itemId := "Apple"; zoneId := Some "Z1" |};
        {| itemId := "Carrot"; zoneId := None |} ]
  ∧ handleDragEnd "Carrot" None bothInFruits = bothInFruits
  ∧ handleDragEnd "Kiwi" (Some "Z2") bothInFruits = bothInFruits.
Proof. by vm_compute. Qed.

(** C9. A drag end without a drop target, or for an item id that has no
    placement record, returns the placement list unchanged. In every case
    the list keeps its length and its sequence of item ids (no record is
    created or removed), and a record of another item keeps its position
    and its value. *)
Theorem handleDragEnd_frame active over ps :
  (over = None ∨ active ∉ itemId <$> ps → handleDragEnd active over ps = ps)
  ∧ length (handleDragEnd active over ps) = length ps
  ∧ itemId <$> handleDragEnd active over ps = itemId <$> ps
  ∧ ∀ k p, ps !! k = Some p → itemId p ≠ active →
           handleDragEnd active over ps !! k = Some p.
Proof.
  destruct over as [over_id |]; simpl.
  - split; [| split; [| split]].
    + intros [? | Hno]; [done |]. by apply applyPlacement_absent.
    + unfold applyPlacement. apply length_fmap.
    + apply applyPlacement_itemIds.
    + intros k p Hk Hne. rewrite applyPlacement_lookup, Hk. simpl.
      by case_decide.
  - done.
Qed.

Lemma handleDragEnd_frame_witness :
  handleDragEnd "Kiwi" (Some "Z2") bothInFruits = bothInFruits
  ∧ handleDragEnd "Carrot" (Some "Z2") bothInFruits !! 0%nat
    = Some {| itemId := "Apple"; zoneId := Some "Z1" |}.
Proof.
  destruct (handleDragEnd_frame "Kiwi" (Some "Z2") bothInFruits) as [H _].
  destruct (handleDragEnd_frame "Carrot" (Some "Z2") bothInFruits)
    as (_ & _ & _ & H').
  split.
  - apply H. right. compute_done.
  - apply H'; [reflexivity | compute_done].
Defined.

(* ===================================================================== *)
(** ** Deleting a zone *)
(* ===================================================================== *)

Lemma Item_withCorrectZoneId_same item z :
  sameButCorrectZone item (Item_withCorrectZoneId item z).
Proof. by repeat split. Qed.

Lemma sameButCorrectZone_refl item : sameButCorrectZone item item.
Proof. by repeat split. Qed.

(** C6. Deleting a zone with id [zid]
    - keeps, in order, exactly the zones whose id is not [zid];
    - maps the placement list position by position: a record naming
      [zid] becomes null, any other record is unchanged;
    - maps the item list position by position: an item whose
      [correctZoneId] is [zid] gets the empty [correctZoneId], any other
      item is unchanged, and in both cases every other field is kept;
    - leaves the instructions and the settings alone. *)
Theorem deleteZone_effect zone s :
  zones (exercise (deleteZone zone s))
  = filter (λ z, Zone.id z ≠ Zone.id zone) (zones (exercise s))
  ∧ ¬ (Zone.id zone ∈ Zone.id <$> zones (exercise (deleteZone zone s)))
  ∧ length (placements (deleteZone zone s)) = length (placements s)
  ∧ (∀ k p, placements s !! k = Some p →
       placements (deleteZone zone s) !! k
       = Some (if decide (zoneId p = Some (Zone.id zone))
               then {| itemId := itemId p; zoneId := None |} else p))
  ∧ length (items (exercise (deleteZone zone s)))
    = length (items (exercise s))
  ∧ (∀ k item, items (exercise s) !! k = Some item →
       ∃ item', items (exercise (deleteZone zone s)) !! k = Some item'
                ∧ sameButCorrectZone item item'
                ∧ Item.correctZoneId item'
                  = (if decide (Item.correctZoneId item = Zone.id zone)
                     then "" else Item.correctZoneId item)
                ∧ (Item.correctZoneId item ≠ Zone.id zone → item' = item))
  ∧ instructions (exercise (deleteZone zone s)) = instructions (exercise s)
  ∧ settings (exercise (deleteZone zone s)) = settings (exercise s).
Proof.
  unfold deleteZone. simpl. repeat split.
  - rewrite list_elem_of_fmap. intros (z & Hid & Hz).
    apply list_elem_of_filter in Hz as [Hne _]. by apply Hne.
  - apply length_fmap.
  - intros k p Hk. by rewrite list_lookup_fmap, Hk.
  - apply length_fmap.
  - intros k item Hk. rewrite list_lookup_fmap, Hk. simpl.
    case_decide as Hz.
    + exists (Item_withCorrectZoneId item ""). split; [done |].
      split; [apply Item_withCorrectZoneId_same |]. split; [done |].
      intros Hne. by destruct Hne.
    + exists item. split; [done |].
      split; [apply sameButCorrectZone_refl |]. done.
Qed.

Lemma deleteZone_effect_witness :
  placements (deleteZone zFruits placedBoth) !! 1%nat
  = Some {| itemId := "Carrot"; zoneId := None |}
  ∧ ∃ item', items (exercise (deleteZone zFruits placedBoth)) !! 0%nat
             = Some item'
             ∧ Item.correctZoneId item' = "".
Proof.
  destruct (deleteZone_effect zFruits placedBoth)
    as (_ & _ & _ & Hp & _ & Hi & _).
  split.
  - apply (Hp 1%nat {| itemId := "Carrot"; zoneId := Some "Z1" |}).
    reflexivity.
  - destruct (Hi 0%nat iApple) as (item' & Hk & _ & Hc & _); [reflexivity |].
    exists item'. split; [exact Hk | exact Hc].
Defined.

Example deleteZone_fruits :
  deleteZone zFruits placedBoth
  = {| exercise :=
         {| instructions := None;
            settings := defaultSettings;
            zones := [zVegetables];
            items := [Item_withCorrectZoneId iApple ""; iCarrot] |};
       placements := [ {| itemId := "Apple"; zoneId := None |};
                       {| itemId := "Carrot"; zoneId := None |} ] |}.
Proof. by vm_compute. Qed.

(** After the deletion no placement names the deleted zone, so its
    per-zone list is empty. *)
Lemma deleteZone_no_placement_left zone s p :
  p ∈ placements (deleteZone zone s) → zoneId p ≠ Some (Zone.id zone).
Proof.
  unfold deleteZone. simpl. intros Hp.
  apply list_elem_of_fmap in Hp as (q & -> & _). by case_decide.
Qed.

Lemma deleteZone_zone_items_empty zone s :
  getZoneItems (exercise (deleteZone zone s)) (placements (deleteZone zone s))
               (Zone.id zone) = [].
Proof.
  destruct (getZoneItems _ _ _) as [| item l] eqn:E; [done |].
  assert (item ∈ item :: l) as Hin by left. rewrite <- E in Hin.
  apply elem_of_getZoneItems in Hin as [_ Hz].
  apply placedIn_iff in Hz as (p & Hp & _ & Hzp).
  by apply deleteZone_no_placement_left in Hp.
Qed.

(* ===================================================================== *)
(** ** One placement record per item *)
(* ===================================================================== *)

Lemma fmap_filter_comm {A B : Type} (f : A → B) (P : B → Prop)
    `{∀ y, Decision (P y)} (l : list A) :
  f <$> filter (λ x, P (f x)) l = filter P (f <$> l).
Proof.
  induction l as [| a l IH]; [done |].
  rewrite fmap_cons, !filter_cons.
  destruct (decide (P (f a))); simpl; by f_equal.
Qed.

Lemma initialPlacements_itemIds its :
  itemId <$> initialPlacements its = Item.id <$> its.
Proof.
  unfold initialPlacements. rewrite <- list_fmap_compose.
  by apply list_fmap_ext.
Qed.

Lemma onLoaded_onePlacementPerItem loaded s :
  onePlacementPerItem (onLoaded loaded s).
Proof. apply initialPlacements_itemIds. Qed.

Lemma loadSampleData_onePlacementPerItem z1 z2 i1 i2 i3 i4 s :
  onePlacementPerItem (loadSampleData z1 z2 i1 i2 i3 i4 s).
Proof. apply initialPlacements_itemIds. Qed.

Lemma dragEnd_onePlacementPerItem active over s :
  onePlacementPerItem s →
  onePlacementPerItem
    {| exercise := exercise s;
       placements := handleDragEnd active over (placements s) |}.
Proof.
  unfold onePlacementPerItem. simpl. intros <-.
  destruct over; [apply applyPlacement_itemIds | done].
Qed.

Lemma saveZone_onePlacementPerItem ez draft fresh s :
  onePlacementPerItem s → onePlacementPerItem (saveZone ez draft fresh s).
Proof. done. Qed.

Lemma deleteZone_onePlacementPerItem zone s :
  onePlacementPerItem s → onePlacementPerItem (deleteZone zone s).
Proof.
  unfold onePlacementPerItem, deleteZone. simpl. intros Hinv.
  rewrite <- !list_fmap_compose.
  transitivity (itemId <$> placements s).
  - apply list_fmap_ext. intros _ p _. simpl. by case_decide.
  - rewrite Hinv. apply list_fmap_ext. intros _ item _. simpl. by case_decide.
Qed.

Lemma saveItem_onePlacementPerItem ei draft fresh s :
  onePlacementPerItem s → onePlacementPerItem (saveItem ei draft fresh s).
Proof.
  unfold onePlacementPerItem, saveItem. intros Hinv.
  destruct ei as [ei |]; simpl.
  - rewrite Hinv, <- list_fmap_compose.
    apply list_fmap_ext. intros _ item _. simpl. by case_decide.
  - by rewrite !fmap_app, Hinv.
Qed.

Lemma deleteItem_onePlacementPerItem item s :
  onePlacementPerItem s → onePlacementPerItem (deleteItem item s).
Proof.
  unfold onePlacementPerItem, deleteItem. simpl. intros Hinv.
  pose proof (fmap_filter_comm itemId (λ i, i ≠ Item.id item)
                (placements s)) as Hps.
  pose proof (fmap_filter_comm Item.id (λ i, i ≠ Item.id item)
                (items (exercise s))) as Hits.
  simpl in Hps, Hits. by rewrite Hps, Hits, Hinv.
Qed.

Lemma dispatch_onePlacementPerItem a s :
  onePlacementPerItem s → onePlacementPerItem (dispatch a s).
Proof.
  destruct a; simpl; intros Hinv.
  - apply onLoaded_onePlacementPerItem.
  - apply loadSampleData_onePlacementPerItem.
  - by apply dragEnd_onePlacementPerItem.
  - by apply saveZone_onePlacementPerItem.
  - by apply deleteZone_onePlacementPerItem.
  - by apply saveItem_onePlacementPerItem.
  - by apply deleteItem_onePlacementPerItem.
  - done.
Qed.

(** What the property gives: as many records as items, the record at an
    item's position carries its id, and distinct item ids give distinct
    record ids. *)
Lemma onePlacementPerItem_length s :
  onePlacementPerItem s →
  length (placements s) = length (items (exercise s)).
Proof.
  intros Hinv.
  by rewrite <- (length_fmap itemId), Hinv, length_fmap.
Qed.

Lemma onePlacementPerItem_lookup s k item :
  onePlacementPerItem s →
  items (exercise s) !! k = Some item →
  ∃ p, placements s !! k = Some p ∧ itemId p = Item.id item.
Proof.
  intros Hinv Hk.
  assert ((itemId <$> placements s) !! k = Some (Item.id item)) as H.
  { rewrite Hinv, list_lookup_fmap, Hk. done. }
  rewrite list_lookup_fmap in H.
  destruct (placements s !! k) as [p |]; [| done].
  exists p. split; [done |]. by injection H.
Qed.

(** C10. Each state-changing event (exercise loaded, sample data loaded,
    drag end, zone saved or deleted, item saved or deleted, settings
    edited) takes a state in which the placement records and the items
    carry the same ids, position by position, to a state with the same
    property: there are as many records as items, and the record at an
    item's position carries that item's id. *)
Theorem dispatch_preserves_onePlacementPerItem a s :
  onePlacementPerItem s →
  onePlacementPerItem (dispatch a s)
  ∧ length (placements (dispatch a s))
    = length (items (exercise (dispatch a s)))
  ∧ ∀ k item, items (exercise (dispatch a s)) !! k = Some item →
              ∃ p, placements (dispatch a s) !! k = Some p
                   ∧ itemId p = Item.id item.
Proof.
  intros Hinv. apply (dispatch_onePlacementPerItem a) in Hinv.
  split; [done |]. split.
  - by apply onePlacementPerItem_length.
  - intros k item. by apply onePlacementPerItem_lookup.
Qed.

Lemma dispatch_preserves_onePlacementPerItem_witness :
  onePlacementPerItem (dispatch (DeleteItem iApple) placedBoth)
  ∧ placements (dispatch (DeleteItem iApple) placedBoth)
    = [ {| itemId := "Carrot"; zoneId := Some "Z1" |} ].
Proof.
  split; [| reflexivity].
  apply (dispatch_preserves_onePlacementPerItem (DeleteItem iApple) placedBoth).
  reflexivity.
Defined.

(** Hence every state the builder can reach has the property. *)
Lemma run_onePlacementPerItem acts s :
  onePlacementPerItem s → onePlacementPerItem (run acts s).
Proof.
  revert s. induction acts as [| a acts IH]; intros s Hinv; [done |].
  apply IH. by apply dispatch_onePlacementPerItem.
Qed.

Lemma reachable_onePlacementPerItem acts :
  onePlacementPerItem (run acts initialBuilder).
Proof. by apply run_onePlacementPerItem. Qed.

Lemma onePlacementPerItem_NoDup s :
  onePlacementPerItem s →
  NoDup (Item.id <$> items (exercise s)) →
  NoDup (itemId <$> placements s).
Proof. by intros ->. Qed.

Example sample_then_edit :
  run [LoadSample "z1" "z2" "a" "b" "c" "d";
       DragEnd "a" (Some "z1");
       SaveItem None iCarrot "e";
       DeleteItem (Item.mk "b" "Carrot" None "z2" None (Some 1) None);
       DeleteZone (Zone.mk "z1" "Fruits" None None None)]
      initialBuilder
  = {| exercise :=
         {| instructions := Some "Drag each item to its correct category.";
            settings := defaultSettings;
            zones := [Zone.mk "z2" "Vegetables" (Some "Nutritious plant foods")
                              None (Some "#F59E0B")];
            items := [ Item.mk "a" "Apple" None "" None (Some 1) None;
                       Item.mk "c" "Banana" None "" None (Some 1) None;
                       Item.mk "d" "Broccoli" None "z2" None (Some 1) None;
                       Item.mk "e" "Carrot" None "Z2" None (Some 1) None ] |};
       placements := [ {| itemId := "a"; zoneId := None |};
                       {| itemId := "c"; zoneId := None |};
                       {| itemId := "d"; zoneId := None |};
                       {| itemId := "e"; zoneId := None |} ] |}.
Proof. by vm_compute. Qed.

(* ===================================================================== *)
(** ** Validation: properties *)
(* ===================================================================== *)

Section ValidationFacts.
Variable toLowerCase : string → string.

Lemma foldl_pushItemError ex acc its :
  foldl (pushItemError ex) acc its
  = acc ++ foldl (pushItemError ex) [] its.
Proof.
  revert acc. induction its as [| item its IH]; intros acc; simpl.
  - by rewrite app_nil_r.
  - rewrite IH. rewrite (IH (pushItemError ex [] item)).
    unfold pushItemError. case_decide; simpl; [| done].
    by rewrite <- app_assoc.
Qed.

(** The errors come in rule order: zone required, item required, one
    per item with an invalid correct zone (in item order), duplicate
    titles. *)
Lemma getValidationErrors_in_rule_order ex :
  getValidationErrors toLowerCase ex
  = (if decide (length (zones ex) = 0%nat)
     then ["At least one zone is required"] else [])
    ++ (if decide (length (items ex) = 0%nat)
        then ["At least one item is required"] else [])
    ++ foldl (pushItemError ex) [] (items ex)
    ++ (if decide (size (list_to_set ((λ z, toLowerCase (Zone.title z))
                                        <$> zones ex) : gset string)
                   ≠ length (zones ex))
        then ["Zone titles must be unique"] else []).
Proof.
  unfold getValidationErrors. rewrite length_fmap.
  rewrite foldl_pushItemError.
  repeat case_decide; simpl; rewrite ?app_nil_r, <- ?app_assoc; done.
Qed.

(** C5. On an exercise without zones and without items the validator
    returns a list (it is a total function) made of the zone-required
    error followed by the item-required error. *)
Theorem getValidationErrors_empty_exercise ex :
  zones ex = [] → items ex = [] →
  getValidationErrors toLowerCase ex
  = ["At least one zone is required"; "At least one item is required"].
Proof.
  intros Hz Hi. unfold getValidationErrors. rewrite Hz, Hi. simpl.
  case_decide as Hdup; [| done].
  exfalso. apply Hdup. reflexivity.
Qed.
End ValidationFacts.

Lemma getValidationErrors_empty_exercise_witness :
  getValidationErrors asciiToLowerCase createEmptyExercise
  = ["At least one zone is required"; "At least one item is required"].
Proof.
  apply (getValidationErrors_empty_exercise asciiToLowerCase
           createEmptyExercise); reflexivity.
Defined.

Example validate_sample_unlinked :
  getValidationErrors asciiToLowerCase
    {| instructions := None; settings := defaultSettings;
       zones := [zFruits; Zone.mk "Z3" "FRUITS" None None None];
       items := [iApple; Item_withCorrectZoneId iCarrot ""] |}
  = [ "Item " +:+ dquote +:+ "Carrot" +:+ dquote
        +:+ " has invalid correct zone";
      "Zone titles must be unique" ].
Proof. by vm_compute. Qed.

(* ===================================================================== *)
(** ** Saving: properties *)
(* ===================================================================== *)

Section PersistenceFacts.
Variable JSON_stringify : DragDropExerciseV1 → string.
Variable network : Request → FetchOutcome.

Lemma saveExercise_remote_ok ex courseId slideId w :
  truthy courseId = true → truthy slideId = true →
  network (saveRequest JSON_stringify ex courseId slideId) = Responded true →
  saveExercise JSON_stringify network ex courseId slideId w
  = (inr true,
     {| localStorage := localStorage w;
        consoleErrors := consoleErrors w;
        toasts := toasts w;
        sent := sent w ++ [saveRequest JSON_stringify ex courseId slideId] |}).
Proof.
  intros Hc Hs Hnet.
  unfold saveExercise, mbind, IO_bind, tryCatch, fetch.
  rewrite Hc, Hs, Hnet. done.
Qed.

Lemma saveExercise_remote_failed ex courseId slideId w :
  truthy courseId = true → truthy slideId = true →
  network (saveRequest JSON_stringify ex courseId slideId) ≠ Responded true →
  ∃ msg,
    saveExercise JSON_stringify network ex courseId slideId w
    = (inr false,
       {| localStorage :=
            <[storageKey := JSON_stringify ex]> (localStorage w);
          consoleErrors := consoleErrors w ++ [msg];
          toasts := toasts w ++ [saveFailedToast];
          sent := sent w
                    ++ [saveRequest JSON_stringify ex courseId slideId] |}).
Proof.
  intros Hc Hs Hnet.
  unfold saveExercise, mbind, IO_bind, tryCatch, fetch.
  rewrite Hc, Hs.
  destruct (network _) as [[|] | reason]; [done | |]; simpl; eauto.
Qed.

Lemma saveExercise_sandbox ex courseId slideId w :
  truthy courseId && truthy slideId = false →
  saveExercise JSON_stringify network ex courseId slideId w
  = (inr false,
     {| localStorage :=
          <[storageKey := JSON_stringify ex]> (localStorage w);
        consoleErrors := consoleErrors w;
        toasts := toasts w;
        sent := sent w |}).
Proof.
  intros Hc. unfold saveExercise, mbind, IO_bind. rewrite Hc.
  destruct w; done.
Qed.

(** C7. With a course id and a slide id present:
    - if the request is rejected or answered with a non-ok response,
      [saveExercise] still returns normally, with result [false], has
      written the serialized exercise under the fixed storage key and
      has raised the "Save Failed" notice;
    - if the request is answered ok, the result is [true]. *)
Theorem saveExercise_degrades_to_local ex courseId slideId w :
  truthy courseId = true → truthy slideId = true →
  (network (saveRequest JSON_stringify ex courseId slideId) ≠ Responded true →
   ∃ w', saveExercise JSON_stringify network ex courseId slideId w
         = (inr false, w')
         ∧ localStorage w' !! storageKey = Some (JSON_stringify ex)
         ∧ localStorage w'
           = <[storageKey := JSON_stringify ex]> (localStorage w)
         ∧ toasts w' = toasts w ++ [saveFailedToast])
  ∧ (network (saveRequest JSON_stringify ex courseId slideId) = Responded true →
     ∃ w', saveExercise JSON_stringify network ex courseId slideId w
           = (inr true, w')
           ∧ localStorage w' = localStorage w).
Proof.
  intros Hc Hs. split; intros Hnet.
  - destruct (saveExercise_remote_failed ex courseId slideId w Hc Hs Hnet)
      as [msg ->].
    eexists. split; [done |]. simpl.
    split; [apply lookup_insert_eq | done].
  - rewrite saveExercise_remote_ok by done. eexists. done.
Qed.
End PersistenceFacts.

Lemma saveExercise_degrades_to_local_witness :
  (∃ w', saveExercise idsStringify offline fruitExercise
           (Some "123") (Some "456") freshWorld = (inr false, w')
         ∧ localStorage w' !! storageKey = Some "{zones:[Z1,Z2],items:[Apple,Carrot]}")
  ∧ (∃ w', saveExercise idsStringify online fruitExercise
             (Some "123") (Some "456") freshWorld = (inr true, w')).
Proof.
  destruct (saveExercise_degrades_to_local idsStringify offline fruitExercise
              (Some "123") (Some "456") freshWorld eq_refl eq_refl)
    as [Hfail _].
  destruct (saveExercise_degrades_to_local idsStringify online fruitExercise
              (Some "123") (Some "456") freshWorld eq_refl eq_refl)
    as [_ Hok].
  split.
  - destruct Hfail as (w' & Hrun & Hkey & _); [discriminate |].
    exists w'. split; [exact Hrun | exact Hkey].
  - destruct Hok as (w' & Hrun & _); [reflexivity |].
    exists w'. exact Hrun.
Defined.

Example saveExercise_server_error :
  saveExercise idsStringify serverError fruitExercise
    (Some "123") (Some "456") freshWorld
  = (inr false,
     {| localStorage :=
          {[ "dragdrop-exercise" := "{zones:[Z1,Z2],items:[Apple,Carrot]}" ]};
        consoleErrors := ["API save error: API save failed"];
        toasts := [saveFailedToast];
        sent := [ {| url := "/api/courses/123/slides/456/drag-drop";
                     method := "PUT";
                     body := "{zones:[Z1,Z2],items:[Apple,Carrot]}" |} ] |}).
Proof. reflexivity. Qed.

(* ===================================================================== *)
(** ** Scoring: properties *)
(* ===================================================================== *)

Lemma pointsOf_spec item :
  pointsOf item
  = match Item.points item with
    | Some p => if decide (p = 0) then 1 else p
    | None => 1
    end.
Proof. done. Qed.


(** The loop, started from any accumulator, adds the closed-form sums and
    the ids of the items that pass the test. *)
Lemma foldl_scoreItem ps its acc :
  foldl (scoreItem ps) acc its
  = {| correct :=
         correct acc
         ∪ list_to_set (Item.id <$> filter (λ item, isCorrect ps item) its);
       totalPoints := totalPoints acc + Zsum (pointsOf <$> its);
       earnedPoints :=
         earnedPoints acc
         + Zsum (pointsOf <$> filter (λ item, isCorrect ps item) its) |}.
Proof.
  revert acc. induction its as [| item its IH]; intros acc; simpl.
  - destruct acc as [c t e]. simpl. f_equal; [| lia | lia].
    by rewrite (right_id_L ∅ (∪)).
  - rewrite IH. unfold scoreItem. rewrite filter_cons.
    destruct (isCorrect ps item) eqn:Hc; simpl; f_equal;
      try (symmetry; apply Z.add_assoc).
    by rewrite (comm_L (∪) {[Item.id item]}), <- (assoc_L (∪)).
Qed.

Lemma calculateScore_closed_form ex ps :
  calculateScore ex ps
  = {| correct :=
         list_to_set
           (Item.id <$> filter (λ item, isCorrect ps item) (items ex));
       totalPoints := Zsum (pointsOf <$> items ex);
       earnedPoints :=
         Zsum (pointsOf <$> filter (λ item, isCorrect ps item) (items ex)) |}.
Proof.
  unfold calculateScore. rewrite foldl_scoreItem. simpl.
  f_equal. by rewrite (left_id_L ∅ (∪)).
Qed.

(** The test of the loop body, read off the code: the placed zone is the
    correct one, or the placed zone, with "no zone" read as the empty
    string, is among the alternates. *)
Lemma isCorrect_spec ps item :
  isCorrect ps item
  ↔ placedZone ps item = Some (Item.correctZoneId item)
    ∨ ∃ alt, Item.altCorrectZoneIds item = Some alt
             ∧ default "" (placedZone ps item) ∈ alt.
Proof.
  unfold isCorrect. rewrite orb_True, bool_decide_spec.
  destruct (Item.altCorrectZoneIds item) as [alt |].
  - rewrite bool_decide_spec. split; intros [H | H]; eauto.
    destruct H as (alt' & [= <-] & H). by right.
  - split; intros [H | H]; [by left | done | by left |].
    by destruct H as (alt' & [=] & _).
Qed.

(** As long as the empty string is not listed as an alternate zone, the
    test is the claim's: the item's placement names the correct zone or
    an alternate. *)
Lemma isCorrect_placementMatches ps item :
  (∀ alt, Item.altCorrectZoneIds item = Some alt → "" ∉ alt) →
  isCorrect ps item ↔ placementMatches ps item.
Proof.
  intros Hblank. rewrite isCorrect_spec. unfold placementMatches.
  destruct (placedZone ps item) as [z |]; simpl.
  - split.
    + intros [[= Hz] | H]; exists z; eauto.
    + intros (z' & [= <-] & [Hz | H]); [left | right]; congruence.
  - split.
    + intros [[=] | (alt & Halt & Hin)]. by destruct (Hblank alt Halt).
    + by intros (z & [=] & _).
Qed.

Lemma calculateScore_correct_ids ex ps i :
  i ∈ correct (calculateScore ex ps)
  ↔ ∃ item, item ∈ items ex ∧ Item.id item = i ∧ isCorrect ps item.
Proof.
  rewrite calculateScore_closed_form. simpl.
  rewrite elem_of_list_to_set, list_elem_of_fmap.
  split.
  - intros (item & Hid & Hin). apply list_elem_of_filter in Hin as [Hc Hin].
    by exists item.
  - intros (item & Hin & Hid & Hc). exists item. split; [done |].
    by apply list_elem_of_filter.
Qed.

(** The scoring claim, for exercises that do not list the empty string as
    an alternate zone: the total is the sum of the point values, the
    correct ids are those of the items whose placement matches, and the
    earned points are the sum over those items. *)
Lemma calculateScore_as_claimed ex ps :
  (∀ item alt, item ∈ items ex →
     Item.altCorrectZoneIds item = Some alt → "" ∉ alt) →
  totalPoints (calculateScore ex ps) = Zsum (pointsOf <$> items ex)
  ∧ (∀ i, i ∈ correct (calculateScore ex ps)
          ↔ ∃ item, item ∈ items ex ∧ Item.id item = i
                    ∧ placementMatches ps item)
  ∧ ∃ matching,
      earnedPoints (calculateScore ex ps) = Zsum (pointsOf <$> matching)
      ∧ matching `sublist_of` items ex
      ∧ ∀ item, item ∈ matching
                ↔ item ∈ items ex ∧ placementMatches ps item.
Proof.
  intros Hblank.
  assert (∀ item, item ∈ items ex →
            isCorrect ps item ↔ placementMatches ps item) as Hiff.
  { intros item Hin. apply isCorrect_placementMatches.
    intros alt. by apply Hblank. }
  split; [| split].
  - by rewrite calculateScore_closed_form.
  - intros i. rewrite calculateScore_correct_ids.
    split; intros (item & Hin & Hid & Hc); exists item;
      (split; [done |]); (split; [done |]); by apply Hiff.
  - exists (filter (λ item, isCorrect ps item) (items ex)).
    split; [by rewrite calculateScore_closed_form |].
    split; [apply sublist_filter |].
    intros item. rewrite list_elem_of_filter.
    split; intros [H1 H2]; split; try done; by apply Hiff.
Qed.

(** The example of the specification: Apple and Carrot both in Fruits. *)
Example calculateScore_fruits :
  calculateScore fruitExercise bothInFruits
  = {| correct := {["Apple"]}; totalPoints := 2; earnedPoints := 1 |}.
Proof.
  reflexivity.
Qed.

(** C1 (where the code departs from it). An unassigned item whose
    alternates contain the empty string is scored as correct: its id is
    in the correct set and its point is earned, although its placement
    names no zone at all. *)
Theorem calculateScore_unassigned_blank_alternate :
  placedZone kiwiUnassigned iBlankAlt = None
  ∧ ¬ placementMatches kiwiUnassigned iBlankAlt
  ∧ "Kiwi" ∈ correct (calculateScore blankAltExercise kiwiUnassigned)
  ∧ totalPoints (calculateScore blankAltExercise kiwiUnassigned) = 1
  ∧ earnedPoints (calculateScore blankAltExercise kiwiUnassigned) = 1.
Proof.
  split; [done |]. split; [by intros (z & [=] & _) |].
  split; [| by rewrite calculateScore_closed_form].
  apply calculateScore_correct_ids. exists iBlankAlt.
  split; [by left |]. done.
Qed.

(* ===================================================================== *)
(** ** Validation: what makes an exercise savable *)
(* ===================================================================== *)

Lemma invalidCorrectZone_iff ex item :
  invalidCorrectZone ex item
  ↔ Item.correctZoneId item = ""
    ∨ Item.correctZoneId item ∉ Zone.id <$> zones ex.
Proof.
  unfold invalidCorrectZone. rewrite list_find_None, Forall_forall.
  rewrite list_elem_of_fmap. split; (intros [H | H]; [by left | right]).
  - intros (z & Hid & Hz). by apply (H z).
  - intros z Hz Hid. apply H. eauto.
Qed.

Lemma foldl_pushItemError_filter ex its :
  foldl (pushItemError ex) [] its
  = itemErrorMessage <$> filter (invalidCorrectZone ex) its.
Proof.
  induction its as [| item its IH]; [done |].
  simpl. rewrite foldl_pushItemError, IH, filter_cons.
  unfold pushItemError. by case_decide.
Qed.

Lemma size_list_to_set_le (l : list string) :
  (size (list_to_set l : gset string) ≤ length l)%nat.
Proof.
  induction l as [| a l IH]; [done |].
  simpl. rewrite size_union_alt, size_singleton.
  assert (size (list_to_set l ∖ {[a]} : gset string)
          ≤ size (list_to_set l : gset string))%nat
    by (apply subseteq_size, subseteq_difference_l; done).
  lia.
Qed.

Lemma size_list_to_set_NoDup (l : list string) :
  size (list_to_set l : gset string) = length l ↔ NoDup l.
Proof.
  split; [| apply size_list_to_set].
  induction l as [| a l IH]; intros Hsize; [constructor |].
  simpl in Hsize. pose proof (size_list_to_set_le l) as Hle.
  destruct (decide (a ∈ l)) as [Hin | Hnin].
  - exfalso.
    assert ({[a]} ∪ list_to_set l = (list_to_set l : gset string)) as Heq.
    { apply subseteq_union_1_L, singleton_subseteq_l.
      by apply elem_of_list_to_set. }
    rewrite Heq in Hsize. lia.
  - rewrite size_union in Hsize.
    + rewrite size_singleton in Hsize. constructor; [done |].
      apply IH. lia.
    + apply disjoint_singleton_l. by rewrite elem_of_list_to_set.
Qed.

Lemma decide_length_nil {A B : Type} `{EqDecision A} (l : list A) (x y : B) :
  (if decide (length l = 0%nat) then x else y)
  = (if decide (l = []) then x else y).
Proof. by destruct l. Qed.

Section SavableFacts.
Variable toLowerCase : string → string.

Lemma validationErrors_nil_iff ex :
  getValidationErrors toLowerCase ex = []
  ↔ zones ex ≠ []
    ∧ items ex ≠ []
    ∧ (∀ item, item ∈ items ex →
         Item.correctZoneId item ≠ ""
         ∧ Item.correctZoneId item ∈ Zone.id <$> zones ex)
    ∧ NoDup ((λ z, toLowerCase (Zone.title z)) <$> zones ex).
Proof.
  rewrite getValidationErrors_in_rule_order, foldl_pushItemError_filter.
  rewrite !decide_length_nil.
  rewrite <- size_list_to_set_NoDup, length_fmap.
  split.
  - intros H.
    apply app_eq_nil in H as [Hz H]. apply app_eq_nil in H as [Hi H].
    apply app_eq_nil in H as [Hitems Ht].
    split; [intros E; by rewrite decide_True in Hz |].
    split; [intros E; by rewrite decide_True in Hi |].
    split.
    + intros item Hin. apply fmap_nil_inv in Hitems.
      assert (¬ invalidCorrectZone ex item) as Hok
        by (intros Hbad; by eapply filter_nil_not_elem_of).
      rewrite invalidCorrectZone_iff in Hok.
      split; [tauto |].
      destruct (decide (Item.correctZoneId item ∈ Zone.id <$> zones ex));
        tauto.
    + destruct (decide (size (list_to_set ((λ z, toLowerCase (Zone.title z))
                                            <$> zones ex) : gset string)
                        = length (zones ex))) as [Heq | Hne]; [done |].
      by rewrite decide_True in Ht.
  - intros (Hz & Hi & Hitems & Ht).
    rewrite !decide_False by done.
    rewrite filter_none.
    + simpl. by rewrite decide_False by (by intros []).
    + intros item Hin Hbad. apply invalidCorrectZone_iff in Hbad.
      destruct (Hitems item Hin). tauto.
Qed.

(** X1. The validator returns no error exactly when the exercise has a
    zone and an item, every item's correct zone id is non-empty and is
    the id of one of the zones, and no two zone titles agree after
    lower-casing. *)
Theorem getValidationErrors_nil_iff ex :
  getValidationErrors toLowerCase ex = []
  ↔ zones ex ≠ []
    ∧ items ex ≠ []
    ∧ (∀ item, item ∈ items ex →
         Item.correctZoneId item ≠ ""
         ∧ Item.correctZoneId item ∈ Zone.id <$> zones ex)
    ∧ NoDup ((λ z, toLowerCase (Zone.title z)) <$> zones ex).
Proof. apply validationErrors_nil_iff. Qed.

(** X2. The error list is, in this order: the zone-required error (if
    there is no zone), the item-required error (if there is no item), one
    message per item whose correct zone id is empty or names no zone, in
    item order, and the unique-titles error (if two titles agree after
    lower-casing). *)
Theorem getValidationErrors_one_per_invalid_item ex :
  getValidationErrors toLowerCase ex
  = (if decide (zones ex = []) then ["At least one zone is required"] else [])
    ++ (if decide (items ex = []) then ["At least one item is required"]
        else [])
    ++ (itemErrorMessage
          <$> filter (λ item, Item.correctZoneId item = ""
                              ∨ Item.correctZoneId item ∉ Zone.id <$> zones ex)
                     (items ex))
    ++ (if decide (NoDup ((λ z, toLowerCase (Zone.title z)) <$> zones ex))
        then [] else ["Zone titles must be unique"]).
Proof.
  rewrite getValidationErrors_in_rule_order, foldl_pushItemError_filter.
  rewrite !decide_length_nil.
  do 3 f_equal.
  - f_equal. apply list_filter_iff, invalidCorrectZone_iff.
  - rewrite <- (length_fmap (λ z, toLowerCase (Zone.title z))).
    destruct (decide (NoDup _)) as [Hnd | Hnd].
    + apply decide_False. intros H. apply H. by apply size_list_to_set.
    + apply decide_True. intros H. by apply Hnd, size_list_to_set_NoDup.
Qed.

(** X3. Deleting a zone that is the correct zone of some item leaves an
    exercise that does not validate: the item's "invalid correct zone"
    message is among the errors. *)
Theorem deleteZone_invalidates_items zone s item :
  item ∈ items (exercise s) →
  Item.correctZoneId item = Zone.id zone →
  itemErrorMessage item
    ∈ getValidationErrors toLowerCase (exercise (deleteZone zone s)).
Proof.
  intros Hin Hz.
  rewrite getValidationErrors_in_rule_order, foldl_pushItemError_filter.
  rewrite !elem_of_app. right. right. left.
  apply list_elem_of_fmap. exists (Item_withCorrectZoneId item "").
  split; [done |]. apply list_elem_of_filter. split; [by left |].
  unfold deleteZone. simpl. apply list_elem_of_fmap.
  exists item. by rewrite decide_True.
Qed.

(** The sample exercise validates as soon as the two generated zone
    ids are non-empty (and the two sample titles stay different in lower
    case): each sample item is wired to one of the two sample zones. *)
Lemma loadSampleData_validates z1 z2 i1 i2 i3 i4 s :
  z1 ≠ "" → z2 ≠ "" →
  toLowerCase "Fruits" ≠ toLowerCase "Vegetables" →
  getValidationErrors toLowerCase
    (exercise (loadSampleData z1 z2 i1 i2 i3 i4 s)) = [].
Proof.
  intros H1 H2 Ht.
  rewrite getValidationErrors_in_rule_order, foldl_pushItemError_filter.
  rewrite !decide_length_nil, filter_none.
  - rewrite !decide_False; [done | | done | done].
    intros H. apply H.
    rewrite <- (length_fmap (λ z, toLowerCase (Zone.title z))).
    apply size_list_to_set.
    change (NoDup [toLowerCase "Fruits"; toLowerCase "Vegetables"]).
    apply NoDup_cons. split.
    + intros Hin. apply list_elem_of_singleton in Hin. by apply Ht.
    + apply NoDup_singleton.
  - intros item Hin Hbad. apply invalidCorrectZone_iff in Hbad. simpl in *.
    repeat (apply elem_of_cons in Hin as [-> | Hin]); simpl in Hbad;
      try (by apply elem_of_nil in Hin);
      destruct Hbad as [Hbad | Hbad]; try done;
      apply Hbad; set_unfold; tauto.
Qed.
End SavableFacts.

Lemma deleteZone_invalidates_items_witness :
  itemErrorMessage iApple
    ∈ getValidationErrors asciiToLowerCase
        (exercise (deleteZone zFruits placedBoth)).
Proof.
  apply (deleteZone_invalidates_items asciiToLowerCase zFruits placedBoth
           iApple); [compute_done | reflexivity].
Defined.

Lemma loadSampleData_validates_witness :
  getValidationErrors asciiToLowerCase
    (exercise (loadSampleData "z1" "z2" "a" "b" "c" "d" initialBuilder)) = [].
Proof.
  apply (loadSampleData_validates asciiToLowerCase); [done | done |].
  compute_done.
Defined.

(* ===================================================================== *)
(** ** Scoring: bounds, feedback and the effect of a drag *)
(* ===================================================================== *)







(** A negative point value breaks the upper bound. *)
Example negative_points_exceed_total :
  calculateScore
    {| instructions := None; settings := defaultSettings;
       zones := [zFruits];
       items := [ iApple;
                  Item.mk "Fig" "Fig" None "Z2" None (Some (-3)) None ] |}
    [ {| itemId := "Apple"; zoneId := Some "Z1" |} ]
  = {| correct := {["Apple"]}; totalPoints := -2; earnedPoints := 1 |}.
Proof. reflexivity. Qed.

(** Only ids of items of the exercise are ever reported correct, and
    there are at most as many correct ids as items. *)
Lemma calculateScore_correct_subset ex ps :
  (∀ i, i ∈ correct (calculateScore ex ps) → i ∈ Item.id <$> items ex)
  ∧ (size (correct (calculateScore ex ps)) ≤ length (items ex))%nat.
Proof.
  split.
  - intros i Hi. apply calculateScore_correct_ids in Hi
      as (item & Hin & <- & _). by apply list_elem_of_fmap_2.
  - rewrite calculateScore_closed_form. simpl.
    etransitivity; [apply size_list_to_set_le |].
    rewrite length_fmap. apply length_filter.
Qed.



Lemma placedZone_cons p ps item :
  placedZone (p :: ps) item
  = if decide (itemId p = Item.id item) then zoneId p else placedZone ps item.
Proof.
  unfold placedZone, findPlacement. simpl.
  case_decide; [done |].
  by destruct (list_find _ ps) as [[k q] |].
Qed.

Lemma placedZone_applyPlacement i target ps item :
  placedZone (applyPlacement i target ps) item
  = if decide (Item.id item = i)
    then (if decide (i ∈ itemId <$> ps) then target else None)
    else placedZone ps item.
Proof.
  induction ps as [| p ps IH].
  - case_decide; [| done]. rewrite decide_False; [done |].
    apply not_elem_of_nil.
  - unfold applyPlacement in *. rewrite fmap_cons, !placedZone_cons, IH.
    clear IH. rewrite fmap_cons.
    assert (∀ x, x ∈ itemId p :: (itemId <$> ps)
                 ↔ x = itemId p ∨ x ∈ itemId <$> ps) as Hcons
      by (intros x; apply elem_of_cons).
    destruct (decide (itemId p = i)) as [Hp | Hp];
      destruct (decide (Item.id item = i)) as [Hi | Hi];
      destruct (decide (i ∈ itemId <$> ps)) as [Hin | Hin];
      destruct (decide (i ∈ itemId p :: (itemId <$> ps))) as [Hin' | Hin'];
      simpl; repeat case_decide; try done; try congruence;
      exfalso; rewrite Hcons in Hin'; intuition congruence.
Qed.

Lemma placedZone_unassigned ex ps item :
  item ∈ getUnassignedItems ex ps → placedZone ps item = None.
Proof.
  intros Hin. apply elem_of_getUnassignedItems_records in Hin as [_ Hnull].
  unfold placedZone. destruct (findPlacement ps item) as [p |] eqn:Hp; [| done].
  apply findPlacement_Some in Hp as [Hin Hid]. simpl. by apply Hnull.
Qed.

Lemma correct_id_isCorrect ex ps item :
  NoDup (Item.id <$> items ex) →
  item ∈ items ex →
  Item.id item ∈ correct (calculateScore ex ps) ↔ isCorrect ps item.
Proof.
  intros Hnd Hin. rewrite calculateScore_correct_ids. split.
  - intros (item' & Hin' & Hid & Hc).
    by rewrite <- (fmap_NoDup_agree Item.id (items ex) item' item).
  - intros Hc. by exists item.
Qed.



(** X7. An item in the unassigned tray passes the correctness test
    exactly when its alternates contain the empty string; in particular
    an unassigned item without alternates never scores. *)
Theorem unassigned_item_correct_iff ex ps item :
  item ∈ getUnassignedItems ex ps →
  (isCorrect ps item
   ↔ ∃ alt, Item.altCorrectZoneIds item = Some alt ∧ "" ∈ alt)
  ∧ (Item.altCorrectZoneIds item = None → isCorrect ps item = false)
  ∧ (NoDup (Item.id <$> items ex) →
     Item.altCorrectZoneIds item = None →
     Item.id item ∉ correct (calculateScore ex ps)).
Proof.
  intros Hin. pose proof (placedZone_unassigned ex ps item Hin) as Hz.
  assert (isCorrect ps item
          ↔ ∃ alt, Item.altCorrectZoneIds item = Some alt ∧ "" ∈ alt) as Hiff.
  { rewrite isCorrect_spec, Hz. simpl. split; [| by right].
    by intros [? | ?]. }
  assert (Item.altCorrectZoneIds item = None → isCorrect ps item = false)
    as Hnone.
  { intros Halt. apply not_true_is_false. intros Hc.
    assert (isCorrect ps item) as H by (by rewrite Hc).
    apply Hiff in H as (alt & Hsome & _). congruence. }
  split; [done |]. split; [done |].
  intros Hnd Halt Hc.
  apply elem_of_getUnassignedItems in Hin as [Hin _].
  apply (correct_id_isCorrect ex ps item Hnd Hin) in Hc.
  by rewrite (Hnone Halt) in Hc.
Qed.

Lemma unassigned_item_correct_iff_witness :
  isCorrect kiwiUnassigned iBlankAlt
  ↔ ∃ alt, Item.altCorrectZoneIds iBlankAlt = Some alt ∧ "" ∈ alt.
Proof.
  apply (unassigned_item_correct_iff blankAltExercise kiwiUnassigned
           iBlankAlt). compute_done.
Defined.

(** X8. Dropping an item that has a placement record on its correct
    zone puts its id in the correct set, unless that zone's id is the
    literal "unassigned" (which the handler reads as the tray). *)
Theorem drop_on_correct_zone_scores ex ps item :
  item ∈ items ex →
  Item.id item ∈ itemId <$> ps →
  Item.correctZoneId item ≠ "unassigned" →
  Item.id item
    ∈ correct (calculateScore ex
                 (handleDragEnd (Item.id item)
                                (Some (Item.correctZoneId item)) ps)).
Proof.
  intros Hin Hrec Hne. apply calculateScore_correct_ids.
  exists item. split; [done |]. split; [done |].
  apply isCorrect_spec. left. simpl.
  rewrite placedZone_applyPlacement, !decide_True by done.
  unfold dropTarget. by rewrite decide_False.
Qed.

Lemma drop_on_correct_zone_scores_witness :
  "Carrot"
    ∈ correct (calculateScore fruitExercise
                 (handleDragEnd "Carrot" (Some "Z2") bothInFruits)).
Proof.
  apply (drop_on_correct_zone_scores fruitExercise bothInFruits iCarrot);
    [compute_done | compute_done | done].
Defined.

(** X9. A drag of one item does not change whether an item with another
    id passes the correctness test. *)
Theorem handleDragEnd_other_items_score active over ps item :
  Item.id item ≠ active →
  placedZone (handleDragEnd active over ps) item = placedZone ps item
  ∧ isCorrect (handleDragEnd active over ps) item = isCorrect ps item.
Proof.
  intros Hne.
  assert (placedZone (handleDragEnd active over ps) item = placedZone ps item)
    as Hz.
  { destruct over as [over_id |]; [| done]. simpl.
    by rewrite placedZone_applyPlacement, decide_False. }
  split; [done |]. unfold isCorrect. by rewrite Hz.
Qed.

Lemma handleDragEnd_other_items_score_witness :
  isCorrect (handleDragEnd "Carrot" (Some "Z2") bothInFruits) iApple
  = isCorrect bothInFruits iApple.
Proof.
  apply (handleDragEnd_other_items_score "Carrot" (Some "Z2") bothInFruits
           iApple). done.
Defined.

(** X10. No drag ever adds an item to a zone whose id is the literal
    "unassigned": such a zone can only lose items. *)
Theorem zone_named_unassigned_never_filled ex active over ps item :
  item ∈ getZoneItems ex (handleDragEnd active over ps) "unassigned" →
  item ∈ getZoneItems ex ps "unassigned".
Proof.
  rewrite !elem_of_getZoneItems, !placedIn_iff.
  intros [Hin (q & Hq & Hid & Hz)]. split; [done |].
  destruct over as [over_id |]; [| by exists q]. simpl in Hq.
  apply elem_of_applyPlacement in Hq as (p & Hp & ->).
  case_decide as Hact; [| by exists p].
  simpl in Hz. unfold dropTarget in Hz. case_decide; congruence.
Qed.

Lemma zone_named_unassigned_never_filled_witness :
  iApple
    ∈ getZoneItems fruitExercise
        [ {| itemId := "Apple"; zoneId := Some "unassigned" |} ] "unassigned".
Proof.
  apply (zone_named_unassigned_never_filled fruitExercise "Carrot"
           (Some "unassigned")
           [ {| itemId := "Apple"; zoneId := Some "unassigned" |} ] iApple).
  compute_done.
Defined.

(* ===================================================================== *)
(** ** Views after each handler *)
(* ===================================================================== *)

Lemma filter_all {A : Type} (P : A → Prop) `{∀ x, Decision (P x)}
    (l : list A) :
  (∀ x, x ∈ l → P x) → filter P l = l.
Proof.
  induction l as [| a l IH]; intros Hall; [done |].
  rewrite filter_cons_True by (apply Hall; left).
  f_equal. apply IH. intros x Hx. apply Hall. by right.
Qed.

Lemma initialPlacements_unplaced its item : unplaced (initialPlacements its) item.
Proof.
  intros p Hp _. unfold initialPlacements in Hp.
  by apply list_elem_of_fmap in Hp as (x & -> & _).
Qed.

(** X11. Right after an exercise is loaded (from the server, from local
    storage or from the sample), every item is in the unassigned tray, in
    item order, and every zone is empty. *)
Theorem loaded_all_unassigned a s :
  (∃ loaded, a = Loaded loaded)
  ∨ (∃ z1 z2 i1 i2 i3 i4, a = LoadSample z1 z2 i1 i2 i3 i4) →
  getUnassignedItems (exercise (dispatch a s)) (placements (dispatch a s))
  = items (exercise (dispatch a s))
  ∧ ∀ z, getZoneItems (exercise (dispatch a s)) (placements (dispatch a s)) z
         = [].
Proof.
  intros Ha.
  assert (placements (dispatch a s)
          = initialPlacements (items (exercise (dispatch a s)))) as ->.
  { destruct Ha as [[loaded ->] | (z1 & z2 & i1 & i2 & i3 & i4 & ->)]; done. }
  generalize (exercise (dispatch a s)). intros ex. split.
  - apply filter_all. intros item Hin.
    rewrite assignedItemIds_assigned, assigned_iff.
    intros (p & Hp & Hid & Hz). apply Hz.
    by apply (initialPlacements_unplaced (items ex) item).
  - intros z. apply filter_none. intros item Hin.
    rewrite zoneItemIds_placedIn, placedIn_iff.
    intros (p & Hp & Hid & Hz).
    by rewrite (initialPlacements_unplaced (items ex) item p) in Hz.
Qed.

Lemma loaded_all_unassigned_witness :
  getUnassignedItems (exercise (dispatch (Loaded fruitExercise) placedBoth))
                     (placements (dispatch (Loaded fruitExercise) placedBoth))
  = [iApple; iCarrot].
Proof.
  apply (loaded_all_unassigned (Loaded fruitExercise) placedBoth).
  left. by exists fruitExercise.
Defined.

Lemma placedIn_applyPlacement_same ps item z z' :
  placedIn (applyPlacement (Item.id item) (Some z) ps) item z' →
  z' = z.
Proof.
  rewrite placedIn_iff. intros (q & Hq & Hid & Hz).
  apply elem_of_applyPlacement in Hq as (p & Hp & ->).
  case_decide as Hact; simpl in *; congruence.
Qed.

Lemma placedIn_applyPlacement_other i target ps item z :
  Item.id item ≠ i →
  placedIn (applyPlacement i target ps) item z ↔ placedIn ps item z.
Proof.
  intros Hne. rewrite !placedIn_iff. split.
  - intros (q & Hq & Hid & Hz).
    apply elem_of_applyPlacement in Hq as (p & Hp & ->).
    case_decide as Hact; simpl in *; [congruence |]. by exists p.
  - intros (p & Hp & Hid & Hz). exists p. split; [| done].
    apply elem_of_applyPlacement. exists p. split; [done |].
    rewrite decide_False; [done | congruence].
Qed.

(** X12. Dropping an item that has a placement record on a zone (any
    droppable id other than "unassigned") puts it in that zone's list,
    in no other zone's list and not in the tray; and an item with another
    id stays in the zone lists it was in. *)
Theorem drop_moves_item_to_zone ex ps item z :
  item ∈ items ex →
  Item.id item ∈ itemId <$> ps →
  z ≠ "unassigned" →
  item ∈ getZoneItems ex (handleDragEnd (Item.id item) (Some z) ps) z
  ∧ (∀ z', z' ≠ z →
       item ∉ getZoneItems ex (handleDragEnd (Item.id item) (Some z) ps) z')
  ∧ ¬ (item ∈ getUnassignedItems ex
                (handleDragEnd (Item.id item) (Some z) ps))
  ∧ (∀ other z', Item.id other ≠ Item.id item →
       other ∈ getZoneItems ex (handleDragEnd (Item.id item) (Some z) ps) z'
       ↔ other ∈ getZoneItems ex ps z').
Proof.
  intros Hin Hrec Hz. simpl. unfold dropTarget. rewrite decide_False by done.
  assert (placedIn (applyPlacement (Item.id item) (Some z) ps) item z) as Hnow.
  { apply list_elem_of_fmap in Hrec as (p & Hid & Hp).
    apply placedIn_iff.
    exists {| itemId := itemId p; zoneId := Some z |}.
    split; [| by split].
    apply elem_of_applyPlacement. exists p. split; [done |].
    by rewrite decide_True. }
  split; [by apply elem_of_getZoneItems |].
  split; [| split].
  - intros z' Hne Hin'. apply elem_of_getZoneItems in Hin' as [_ Hz'].
    by apply placedIn_applyPlacement_same in Hz'.
  - intros Hin'. apply elem_of_getUnassignedItems in Hin' as [_ Hno].
    apply Hno, assigned_placedIn. eauto.
  - intros other z' Hne.
    by rewrite !elem_of_getZoneItems, placedIn_applyPlacement_other.
Qed.

Lemma drop_moves_item_to_zone_witness :
  iCarrot ∈ getZoneItems fruitExercise
              (handleDragEnd "Carrot" (Some "Z2") bothInFruits) "Z2"
  ∧ iCarrot ∉ getZoneItems fruitExercise
                (handleDragEnd "Carrot" (Some "Z2") bothInFruits) "Z1".
Proof.
  destruct (drop_moves_item_to_zone fruitExercise bothInFruits iCarrot "Z2")
    as (H1 & H2 & _); [compute_done | compute_done | done |].
  split; [exact H1 | by apply H2].
Defined.

(* --------------------------------------------------------------------- *)
(** *** Placements stay inside the zone list *)
(* --------------------------------------------------------------------- *)

Lemma initialPlacements_null its p :
  p ∈ initialPlacements its → zoneId p = None.
Proof.
  unfold initialPlacements. intros Hp.
  by apply list_elem_of_fmap in Hp as (x & -> & _).
Qed.

Lemma dispatch_placementsInZones a s :
  placementsInZones (exercise s) (placements s) →
  wellTargeted a s →
  placementsInZones (exercise (dispatch a s)) (placements (dispatch a s)).
Proof.
  intros Hinv Hwt.
  destruct a as [loaded | z1 z2 i1 i2 i3 i4 | active over | ez draft fresh
                 | zone | ei draft fresh | item | instr st]; simpl.
  - intros p z Hp Hz. by rewrite (initialPlacements_null _ p Hp) in Hz.
  - intros p z Hp Hz.
    repeat (apply elem_of_cons in Hp as [-> | Hp]); try done.
    by apply elem_of_nil in Hp.
  - destruct over as [over_id |]; [| done]. simpl in *.
    intros q z Hq Hz. apply elem_of_applyPlacement in Hq as (p & Hp & ->).
    case_decide as Hact; [| by eapply Hinv].
    simpl in Hz. unfold dropTarget in Hz. case_decide as Hun; [done |].
    injection Hz as <-. by destruct Hwt.
  - intros p z Hp Hz. specialize (Hinv p z Hp Hz).
    destruct ez as [ez |]; simpl.
    + rewrite <- list_fmap_compose.
      erewrite list_fmap_ext; [exact Hinv |].
      intros _ zo _. simpl. by case_decide.
    + rewrite fmap_app. apply elem_of_app. by left.
  - intros q z Hq Hz. apply list_elem_of_fmap in Hq as (p & -> & Hp).
    case_decide as Hdel; [done |].
    pose proof (Hinv p z Hp Hz) as Hin.
    apply list_elem_of_fmap in Hin as (zo & -> & Hzo).
    apply list_elem_of_fmap_2, list_elem_of_filter. split; [| done].
    intros Heq. apply Hdel. by rewrite Hz, Heq.
  - destruct ei as [ei |]; simpl; [done |].
    intros p z Hp Hz. apply elem_of_app in Hp as [Hp | Hp]; [by eapply Hinv |].
    apply list_elem_of_singleton in Hp as ->. done.
  - intros p z Hp Hz. apply list_elem_of_filter in Hp as [_ Hp].
    by eapply Hinv.
  - done.
Qed.

(** X13. Every handler keeps the placements inside the zone list: if
    each zone named by a placement is a zone of the exercise, the same
    holds after any action whose drag (if it is one) ends on a zone of
    the exercise, on the tray or nowhere. Zone deletion is the case
    that needs the reset of the deleted zone's placements. *)
Theorem dispatch_keeps_placements_in_zones a s :
  placementsInZones (exercise s) (placements s) →
  wellTargeted a s →
  placementsInZones (exercise (dispatch a s)) (placements (dispatch a s)).
Proof. apply dispatch_placementsInZones. Qed.

Lemma dispatch_keeps_placements_in_zones_witness :
  placementsInZones (exercise (dispatch (DeleteZone zFruits) placedBoth))
                    (placements (dispatch (DeleteZone zFruits) placedBoth)).
Proof.
  apply (dispatch_keeps_placements_in_zones (DeleteZone zFruits) placedBoth).
  - intros p z Hp Hz. unfold placedBoth in Hp. simpl in Hp.
    repeat (apply elem_of_cons in Hp as [-> | Hp]);
      try (by apply elem_of_nil in Hp);
      simpl in Hz; injection Hz as <-; compute_done.
  - exact I.
Defined.

Lemma run_placementsInZones acts s :
  placementsInZones (exercise s) (placements s) →
  allWellTargeted acts s →
  placementsInZones (exercise (run acts s)) (placements (run acts s)).
Proof.
  revert s. induction acts as [| a acts IH]; intros s Hinv Hwt; [done |].
  destruct Hwt as [Ha Hrest]. apply IH; [| done].
  by apply dispatch_placementsInZones.
Qed.

(** X14. In every state the builder reaches from its initial state
    through actions whose drags end on existing droppables, if the zone
    ids are pairwise distinct and the item ids are pairwise distinct,
    each item is shown in exactly one place: one zone's list or the
    unassigned tray. *)
Theorem reachable_views_partition acts item :
  allWellTargeted acts initialBuilder →
  NoDup (Zone.id <$> zones (exercise (run acts initialBuilder))) →
  NoDup (Item.id <$> items (exercise (run acts initialBuilder))) →
  item ∈ items (exercise (run acts initialBuilder)) →
  occurrences item
    (collections (exercise (run acts initialBuilder))
                 (placements (run acts initialBuilder))) = 1%nat.
Proof.
  intros Hwt Hzs Hits Hin.
  apply occurrences_partition; [done | | | done].
  - apply onePlacementPerItem_NoDup; [| done].
    apply reachable_onePlacementPerItem.
  - apply run_placementsInZones; [| done].
    intros p z Hp. by apply elem_of_nil in Hp.
Qed.

Lemma reachable_views_partition_witness :
  occurrences (Item.mk "a" "Apple" None "z1" None (Some 1) None)
    (collections
       (exercise (run [LoadSample "z1" "z2" "a" "b" "c" "d";
                       DragEnd "a" (Some "z2")] initialBuilder))
       (placements (run [LoadSample "z1" "z2" "a" "b" "c" "d";
                         DragEnd "a" (Some "z2")] initialBuilder))) = 1%nat.
Proof.
  apply (reachable_views_partition
           [LoadSample "z1" "z2" "a" "b" "c" "d"; DragEnd "a" (Some "z2")]).
  - split; [exact I |]. split; [| exact I]. right. compute_done.
  - compute_done.
  - compute_done.
  - compute_done.
Defined.

(* --------------------------------------------------------------------- *)
(** *** Views after deleting or saving items and zones *)
(* --------------------------------------------------------------------- *)

Lemma filter_filter_swap {A : Type} (P Q : A → Prop)
    `{∀ x, Decision (P x)} `{∀ x, Decision (Q x)} (l : list A) :
  filter P (filter Q l) = filter Q (filter P l).
Proof.
  induction l as [| a l IH]; [done |].
  rewrite !filter_cons.
  destruct (decide (Q a)), (decide (P a));
    rewrite ?filter_cons_True, ?filter_cons_False by done; by rewrite IH.
Qed.

Lemma placedIn_filter_other ps item x z :
  Item.id item ≠ x →
  placedIn (filter (λ p, itemId p ≠ x) ps) item z ↔ placedIn ps item z.
Proof.
  intros Hne. rewrite !placedIn_iff. split.
  - intros (p & Hp & H). apply list_elem_of_filter in Hp as [_ Hp]. eauto.
  - intros (p & Hp & Hid & Hz). exists p. split; [| done].
    apply list_elem_of_filter. split; [congruence | done].
Qed.

(** X15. Deleting an item removes every item with its id from each
    zone's list and from the tray, and leaves the other entries of each
    view as they were, in the same order. *)
Theorem deleteItem_views item s z :
  getZoneItems (exercise (deleteItem item s)) (placements (deleteItem item s)) z
  = filter (λ i, Item.id i ≠ Item.id item)
           (getZoneItems (exercise s) (placements s) z)
  ∧ getUnassignedItems (exercise (deleteItem item s))
                       (placements (deleteItem item s))
    = filter (λ i, Item.id i ≠ Item.id item)
             (getUnassignedItems (exercise s) (placements s)).
Proof.
  split.
  - rewrite !getZoneItems_filter_placedIn.
    unfold deleteItem. simpl.
    rewrite (filter_filter_swap (λ i, Item.id i ≠ Item.id item)).
    rewrite !list_filter_filter. apply list_filter_iff. intros i.
    split; intros [H1 H2]; (split; [| done]);
      by apply (placedIn_filter_other (placements s) i (Item.id item) z).
  - unfold getUnassignedItems, deleteItem. simpl.
    rewrite (filter_filter_swap (λ i, Item.id i ≠ Item.id item)).
    rewrite !list_filter_filter. apply list_filter_iff. intros i.
    rewrite assignedItemIds_assigned.
    split; intros [H1 H2]; (split; [| done]).
    + intros Ha. apply assigned_iff in Ha as (p & Hp & Hid & Hz).
      apply H1, list_elem_of_fmap. exists p. split; [done |].
      apply list_elem_of_filter. split; [| done]. split; [done | congruence].
    + intros Hin. apply list_elem_of_fmap in Hin as (p & Hid & Hp).
      apply list_elem_of_filter in Hp as [[Hz _] Hp].
      apply H1, assigned_iff. by exists p.
Qed.

Lemma deleteItem_views_example :
  getUnassignedItems (exercise (deleteItem iApple placedBoth))
                     (placements (deleteItem iApple placedBoth)) = []
  ∧ getZoneItems (exercise (deleteItem iApple placedBoth))
                 (placements (deleteItem iApple placedBoth)) "Z1" = [iCarrot].
Proof. by vm_compute. Qed.

Lemma getZoneItems_ids ex ps z :
  Item.id <$> getZoneItems ex ps z
  = filter (λ i, i ∈ itemId <$> filter (λ p, zoneId p = Some z) ps)
           (Item.id <$> items ex).
Proof.
  unfold getZoneItems.
  pose proof (fmap_filter_comm Item.id
                (λ i, i ∈ itemId <$> filter (λ p, zoneId p = Some z) ps)
                (items ex)) as H.
  exact H.
Qed.

Lemma getUnassignedItems_ids ex ps :
  Item.id <$> getUnassignedItems ex ps
  = filter (λ i, ¬ (i ∈ itemId <$> filter (λ p, zoneId p ≠ None) ps))
           (Item.id <$> items ex).
Proof.
  unfold getUnassignedItems.
  pose proof (fmap_filter_comm Item.id
                (λ i, ¬ (i ∈ itemId <$> filter (λ p, zoneId p ≠ None) ps))
                (items ex)) as H.
  exact H.
Qed.

(** X16. Adding an item whose fresh id is not the id of an existing
    placement record appends it to the unassigned tray and changes no
    zone's list. *)
Theorem saveItem_new_item_unassigned draft fresh s :
  fresh ∉ itemId <$> placements s →
  getUnassignedItems (exercise (saveItem None draft fresh s))
                     (placements (saveItem None draft fresh s))
  = getUnassignedItems (exercise s) (placements s) ++ [Item_withId draft fresh]
  ∧ ∀ z, getZoneItems (exercise (saveItem None draft fresh s))
                      (placements (saveItem None draft fresh s)) z
         = getZoneItems (exercise s) (placements s) z.
Proof.
  intros Hfresh. unfold getUnassignedItems, getZoneItems, saveItem. simpl.
  assert (∀ (P : ItemPlacement → Prop) `{∀ p, Decision (P p)},
            ¬ P {| itemId := fresh; zoneId := None |} →
            filter P (placements s ++ [{| itemId := fresh; zoneId := None |}])
            = filter P (placements s)) as Hrec.
  { intros P HP Hno.
    by rewrite filter_app, filter_cons_False, filter_nil, app_nil_r. }
  assert (∀ (P : ItemPlacement → Prop) `{∀ p, Decision (P p)},
            fresh ∉ itemId <$> filter P (placements s)) as Hnew.
  { intros P HP Hin. apply Hfresh.
    apply list_elem_of_fmap in Hin as (p & -> & Hp).
    apply list_elem_of_filter in Hp as [_ Hp]. by apply list_elem_of_fmap_2. }
  split.
  - rewrite Hrec by (simpl; tauto).
    rewrite filter_app. f_equal.
    rewrite filter_cons_True; [done |]. simpl. apply Hnew.
  - intros z. rewrite Hrec by done.
    rewrite filter_app, filter_cons_False, filter_nil, app_nil_r; [done |].
    simpl. apply Hnew.
Qed.

Lemma saveItem_new_item_unassigned_witness :
  getUnassignedItems (exercise (saveItem None iBlankAlt "Kiwi" placedBoth))
                     (placements (saveItem None iBlankAlt "Kiwi" placedBoth))
  = getUnassignedItems (exercise placedBoth) (placements placedBoth)
      ++ [Item_withId iBlankAlt "Kiwi"].
Proof.
  apply (saveItem_new_item_unassigned iBlankAlt "Kiwi" placedBoth).
  compute_done.
Defined.

(** A colliding id is not harmless: the new item then shows up in the
    zone of the record that already carries its id. *)
Example saveItem_colliding_id_lands_in_zone :
  getZoneItems (exercise (saveItem None iBlankAlt "Apple" placedBoth))
               (placements (saveItem None iBlankAlt "Apple" placedBoth)) "Z1"
  = [iApple; iCarrot; Item_withId iBlankAlt "Apple"].
Proof. by vm_compute. Qed.

(** X17. Editing an item leaves the placement records alone and keeps
    every item's id, so each zone's list and the tray show the same ids
    in the same order as before. *)
Theorem saveItem_edit_keeps_views ei draft fresh s :
  placements (saveItem (Some ei) draft fresh s) = placements s
  ∧ Item.id <$> items (exercise (saveItem (Some ei) draft fresh s))
    = Item.id <$> items (exercise s)
  ∧ (∀ z, Item.id <$> getZoneItems (exercise (saveItem (Some ei) draft fresh s))
                        (placements (saveItem (Some ei) draft fresh s)) z
          = Item.id <$> getZoneItems (exercise s) (placements s) z)
  ∧ Item.id <$> getUnassignedItems (exercise (saveItem (Some ei) draft fresh s))
                  (placements (saveItem (Some ei) draft fresh s))
    = Item.id <$> getUnassignedItems (exercise s) (placements s).
Proof.
  assert (Item.id <$> items (exercise (saveItem (Some ei) draft fresh s))
          = Item.id <$> items (exercise s)) as Hids.
  { unfold saveItem. simpl. rewrite <- list_fmap_compose.
    apply list_fmap_ext. intros _ i _. simpl. by case_decide. }
  split; [done |]. split; [done |]. split.
  - intros z. by rewrite !getZoneItems_ids, Hids.
  - by rewrite !getUnassignedItems_ids, Hids.
Qed.

Lemma placedIds_deleteZone zone (ps : list ItemPlacement) z :
  z ≠ Zone.id zone →
  itemId <$> filter (λ p, zoneId p = Some z)
               ((λ p, if decide (zoneId p = Some (Zone.id zone))
                      then {| itemId := itemId p; zoneId := None |}
                      else p) <$> ps)
  = itemId <$> filter (λ p, zoneId p = Some z) ps.
Proof.
  intros Hne. induction ps as [| p ps IH]; [done |].
  rewrite fmap_cons, !filter_cons.
  destruct (decide (zoneId p = Some (Zone.id zone))) as [Hdel | Hkeep]; simpl.
  - rewrite decide_False by congruence. exact IH.
  - destruct (decide (zoneId p = Some z)); simpl; [f_equal |]; exact IH.
Qed.

(** X18. After a zone is deleted: its own list is empty; every other
    zone's list shows the same item ids in the same order; every item
    that was in the tray is still there; and, with one placement record
    per item id, every item that was in the deleted zone is now in the
    tray (an item is recognised by its id, since its [correctZoneId] may
    have been cleared). *)
Theorem deleteZone_views zone s :
  getZoneItems (exercise (deleteZone zone s)) (placements (deleteZone zone s))
               (Zone.id zone) = []
  ∧ (∀ z, z ≠ Zone.id zone →
       Item.id <$> getZoneItems (exercise (deleteZone zone s))
                     (placements (deleteZone zone s)) z
       = Item.id <$> getZoneItems (exercise s) (placements s) z)
  ∧ (∀ item, item ∈ getUnassignedItems (exercise s) (placements s) →
       Item.id item
         ∈ Item.id <$> getUnassignedItems (exercise (deleteZone zone s))
                         (placements (deleteZone zone s)))
  ∧ (NoDup (itemId <$> placements s) →
     ∀ item, item ∈ getZoneItems (exercise s) (placements s) (Zone.id zone) →
       Item.id item
         ∈ Item.id <$> getUnassignedItems (exercise (deleteZone zone s))
                         (placements (deleteZone zone s))).
Proof.
  assert (Item.id <$> items (exercise (deleteZone zone s))
          = Item.id <$> items (exercise s)) as Hids.
  { unfold deleteZone. simpl. rewrite <- list_fmap_compose.
    apply list_fmap_ext. intros _ i _. simpl. by case_decide. }
  assert (∀ item,
            item ∈ items (exercise s) →
            (∀ p, p ∈ placements s → itemId p = Item.id item →
                  zoneId p = None ∨ zoneId p = Some (Zone.id zone)) →
            Item.id item
              ∈ Item.id <$> getUnassignedItems (exercise (deleteZone zone s))
                              (placements (deleteZone zone s))) as Htray.
  { intros item Hin Hrec. rewrite getUnassignedItems_ids, Hids.
    apply list_elem_of_filter. split; [| by apply list_elem_of_fmap_2].
    intros Hass. apply list_elem_of_fmap in Hass as (q & Hid & Hq).
    apply list_elem_of_filter in Hq as [Hz Hq].
    unfold deleteZone in Hq. simpl in Hq.
    apply list_elem_of_fmap in Hq as (p & -> & Hp).
    case_decide as Hdel; [done |].
    destruct (Hrec p Hp) as [Hnone | Hsome]; [done | |]; congruence. }
  split; [apply deleteZone_zone_items_empty |]. split; [| split].
  - intros z Hne. rewrite !getZoneItems_ids, Hids.
    unfold deleteZone. simpl. by rewrite placedIds_deleteZone.
  - intros item Hin. apply elem_of_getUnassignedItems_records in Hin as [Hin Hnull].
    apply Htray; [done |]. intros p Hp Hid. left. by apply Hnull.
  - intros Hnd item Hin. apply elem_of_getZoneItems in Hin as [Hin Hz].
    apply Htray; [done |]. intros p Hp Hid. right.
    apply placedIn_iff in Hz as (p0 & Hp0 & Hid0 & Hz0).
    assert (p = p0) as -> by (eapply fmap_NoDup_agree; eauto; congruence).
    done.
Qed.

Lemma deleteZone_views_witness :
  "Carrot"
    ∈ Item.id <$> getUnassignedItems (exercise (deleteZone zFruits placedBoth))
                    (placements (deleteZone zFruits placedBoth)).
Proof.
  destruct (deleteZone_views zFruits placedBoth) as (_ & _ & _ & H).
  apply (H ltac:(compute_done) iCarrot). compute_done.
Defined.

(* ===================================================================== *)
(** ** Loading and saving: properties *)
(* ===================================================================== *)

(** What reading the local copy gives in world [w]. *)
Lemma truthy_presentOrUndefined c : truthy (presentOrUndefined c) = truthy c.
Proof.
  destruct c as [v |]; [| done]. unfold presentOrUndefined, orUndefined.
  simpl. case_decide as Hv; simpl; [| done].
  subst v. done.
Qed.

Section LoadingFacts.
Variable JSON_parse : string → option DragDropExerciseV1.
Variable JSON_stringify : DragDropExerciseV1 → string.
Variable server : Request → GetOutcome.
Variable network : Request → FetchOutcome.

Lemma loadExercise_local courseId slideId w :
  truthy courseId && truthy slideId = false →
  loadExercise JSON_parse server courseId slideId w
  = (match localStorage w !! storageKey with
     | Some text =>
         if decide (text = "") then inr createEmptyExercise
         else match JSON_parse text with
              | Some doc => inr doc
              | None => inl "SyntaxError"
              end
     | None => inr createEmptyExercise
     end, w).
Proof.
  intros Hc. unfold loadExercise, mbind, IO_bind. rewrite Hc. simpl.
  unfold localStorage_getItem.
  destruct (localStorage w !! storageKey) as [text |]; [| done].
  case_decide; [done |]. unfold parseDocument.
  by destruct (JSON_parse text).
Qed.

(** X19. Without a course id and a slide id, [loadExercise] reads the
    local copy only: it sends no request and changes nothing; it returns
    the parsed text stored under the fixed key, the empty exercise when
    nothing (or the empty string) is stored, and it throws when the
    stored text does not parse. *)
Theorem loadExercise_sandbox courseId slideId w :
  truthy courseId && truthy slideId = false →
  worldAfter (loadExercise JSON_parse server courseId slideId w) = w
  ∧ (localStorage w !! storageKey = None
     ∨ localStorage w !! storageKey = Some "" →
     fst (loadExercise JSON_parse server courseId slideId w)
     = inr createEmptyExercise)
  ∧ (∀ text doc,
       localStorage w !! storageKey = Some text → text ≠ "" →
       JSON_parse text = Some doc →
       fst (loadExercise JSON_parse server courseId slideId w) = inr doc)
  ∧ (∀ text,
       localStorage w !! storageKey = Some text → text ≠ "" →
       JSON_parse text = None →
       ¬ returnedNormally (loadExercise JSON_parse server courseId slideId w)).
Proof.
  intros Hc. rewrite loadExercise_local by done.
  split; [done |]. split; [| split].
  - intros [-> | ->]; done.
  - intros text doc -> Hne ->. by rewrite decide_False.
  - intros text -> Hne ->. rewrite decide_False by done.
    by intros [a Ha].
Qed.

Lemma loadExercise_remote_ok courseId slideId w text doc :
  truthy courseId = true → truthy slideId = true →
  server (loadRequest courseId slideId) = GetResponded true text →
  JSON_parse text = Some doc →
  loadExercise JSON_parse server courseId slideId w
  = (inr doc,
     {| localStorage := localStorage w;
        consoleErrors := consoleErrors w;
        toasts := toasts w;
        sent := sent w ++ [loadRequest courseId slideId] |}).
Proof.
  intros Hc Hs Hsrv Hparse.
  unfold loadExercise, mbind, IO_bind, tryCatch, fetchGet, parseDocument.
  rewrite Hc, Hs, Hsrv. simpl. by rewrite Hparse.
Qed.

Lemma loadExercise_remote_fallback courseId slideId w :
  truthy courseId = true → truthy slideId = true →
  (∀ text doc, server (loadRequest courseId slideId) = GetResponded true text →
               JSON_parse text = Some doc → False) →
  ∃ errs,
    loadExercise JSON_parse server courseId slideId w
    = (fst (loadExercise JSON_parse server None None w),
       {| localStorage := localStorage w;
          consoleErrors := consoleErrors w ++ errs;
          toasts := toasts w;
          sent := sent w ++ [loadRequest courseId slideId] |}).
Proof.
  intros Hc Hs Hbad. rewrite (loadExercise_local None None) by done.
  unfold loadExercise, mbind, IO_bind, tryCatch, fetchGet, parseDocument,
    localStorage_getItem.
  rewrite Hc, Hs. simpl.
  destruct (server _) as [[|] text | reason] eqn:Hsrv; simpl.
  - destruct (JSON_parse text) as [doc |] eqn:Hparse.
    + by destruct (Hbad text doc).
    + exists ["API load error: SyntaxError"]. simpl.
      destruct (localStorage w !! storageKey) as [saved |]; [| done].
      case_decide; [done |]. by destruct (JSON_parse saved).
  - exists []. rewrite app_nil_r.
    destruct (localStorage w !! storageKey) as [saved |]; [| done].
    case_decide; [done |]. by destruct (JSON_parse saved).
  - exists ["API load error: " +:+ reason]. simpl.
    destruct (localStorage w !! storageKey) as [saved |]; [| done].
    case_decide; [done |]. by destruct (JSON_parse saved).
Qed.

(** X20. With a course id and a slide id, an ok response whose body
    parses is what [loadExercise] returns, whatever local storage holds;
    the only trace is the request that was sent. *)
Theorem loadExercise_prefers_server courseId slideId w text doc :
  truthy courseId = true → truthy slideId = true →
  server (loadRequest courseId slideId) = GetResponded true text →
  JSON_parse text = Some doc →
  fst (loadExercise JSON_parse server courseId slideId w) = inr doc
  ∧ localStorage (worldAfter (loadExercise JSON_parse server courseId slideId w))
    = localStorage w
  ∧ sent (worldAfter (loadExercise JSON_parse server courseId slideId w))
    = sent w ++ [loadRequest courseId slideId].
Proof.
  intros Hc Hs Hsrv Hparse.
  by rewrite (loadExercise_remote_ok courseId slideId w text doc).
Qed.

(** X21. With a course id and a slide id, when the request is rejected,
    answered with a non-ok response, or answered with a body that does
    not parse, [loadExercise] gives exactly what the local copy gives
    (the result of loading without locator). *)
Theorem loadExercise_falls_back_to_local courseId slideId w :
  truthy courseId = true → truthy slideId = true →
  (∀ text doc, server (loadRequest courseId slideId) = GetResponded true text →
               JSON_parse text = Some doc → False) →
  fst (loadExercise JSON_parse server courseId slideId w)
  = fst (loadExercise JSON_parse server None None w)
  ∧ localStorage (worldAfter (loadExercise JSON_parse server courseId slideId w))
    = localStorage w.
Proof.
  intros Hc Hs Hbad.
  destruct (loadExercise_remote_fallback courseId slideId w Hc Hs Hbad)
    as [errs ->]. done.
Qed.

(** X22. Loading never writes: whatever the locator, the server and the
    stored text, local storage and the notices are the same after
    [loadExercise] as before. *)
Theorem loadExercise_never_writes courseId slideId w :
  localStorage (worldAfter (loadExercise JSON_parse server courseId slideId w))
  = localStorage w
  ∧ toasts (worldAfter (loadExercise JSON_parse server courseId slideId w))
    = toasts w.
Proof.
  destruct (truthy courseId && truthy slideId) eqn:Hloc.
  - apply andb_true_iff in Hloc as [Hc Hs].
    destruct (server (loadRequest courseId slideId)) as [ok text | reason]
      eqn:Hsrv.
    + destruct ok; [destruct (JSON_parse text) as [doc |] eqn:Hparse |].
      * by rewrite (loadExercise_remote_ok courseId slideId w text doc).
      * destruct (loadExercise_remote_fallback courseId slideId w Hc Hs)
          as [errs ->]; [| done].
        intros text' doc' Hsrv'. rewrite Hsrv in Hsrv'.
        injection Hsrv' as <-. congruence.
      * destruct (loadExercise_remote_fallback courseId slideId w Hc Hs)
          as [errs ->]; [| done].
        intros text' doc' Hsrv'. by rewrite Hsrv in Hsrv'.
    + destruct (loadExercise_remote_fallback courseId slideId w Hc Hs)
        as [errs ->]; [| done].
      intros text' doc' Hsrv'. by rewrite Hsrv in Hsrv'.
  - by rewrite loadExercise_local.
Qed.

Lemma saveExercise_cases ex courseId slideId w :
  (∃ w', saveExercise JSON_stringify network ex courseId slideId w
         = (inr true, w')
         ∧ localStorage w' = localStorage w)
  ∨ (∃ w', saveExercise JSON_stringify network ex courseId slideId w
           = (inr false, w')
           ∧ localStorage w'
             = <[storageKey := JSON_stringify ex]> (localStorage w)).
Proof.
  destruct (truthy courseId && truthy slideId) eqn:Hloc.
  - apply andb_true_iff in Hloc as [Hc Hs].
    destruct (network (saveRequest JSON_stringify ex courseId slideId))
      as [[|] | reason] eqn:Hnet.
    + left. rewrite saveExercise_remote_ok by done. eexists. done.
    + right.
      destruct (saveExercise_remote_failed JSON_stringify network ex
                  courseId slideId w Hc Hs) as [msg ->]; [by rewrite Hnet |].
      eexists. done.
    + right.
      destruct (saveExercise_remote_failed JSON_stringify network ex
                  courseId slideId w Hc Hs) as [msg ->]; [by rewrite Hnet |].
      eexists. done.
  - right. rewrite saveExercise_sandbox by done. eexists. done.
Qed.

(** X23. Save then load. If [JSON.parse] undoes [JSON.stringify] on the
    exercise (and the text is non-empty), then after any [saveExercise]
    that reports a local save (result [false]), a load that uses the
    local copy returns that exercise. A save that reports [true] never
    touched the local copy. *)
Theorem save_then_load_local ex courseId slideId w :
  JSON_parse (JSON_stringify ex) = Some ex →
  JSON_stringify ex ≠ "" →
  ∃ b w', saveExercise JSON_stringify network ex courseId slideId w
          = (inr b, w')
          ∧ (b = false →
             fst (loadExercise JSON_parse server None None w') = inr ex)
          ∧ (b = true → localStorage w' = localStorage w).
Proof.
  intros Hrt Hne.
  destruct (saveExercise_cases ex courseId slideId w)
    as [(w' & -> & Hst) | (w' & -> & Hst)].
  - exists true, w'. done.
  - exists false, w'. split; [done |]. split; [| done]. intros _.
    rewrite loadExercise_local by done. simpl.
    rewrite Hst, lookup_insert_eq, decide_False by done. by rewrite Hrt.
Qed.
End LoadingFacts.

Lemma loadExercise_sandbox_witness :
  fst (loadExercise fruitParse brokenServer None None storedFruitWorld)
  = inr fruitExercise.
Proof.
  destruct (loadExercise_sandbox fruitParse brokenServer None None
              storedFruitWorld eq_refl) as (_ & _ & H & _).
  apply (H (idsStringify fruitExercise)); [reflexivity | done | reflexivity].
Defined.

Lemma loadExercise_prefers_server_witness :
  fst (loadExercise fruitParse fruitServer (Some "123") (Some "456")
         freshWorld) = inr fruitExercise.
Proof.
  apply (loadExercise_prefers_server fruitParse fruitServer (Some "123")
           (Some "456") freshWorld (idsStringify fruitExercise) fruitExercise);
    reflexivity.
Defined.

Lemma loadExercise_falls_back_to_local_witness :
  fst (loadExercise fruitParse brokenServer (Some "123") (Some "456")
         storedFruitWorld)
  = fst (loadExercise fruitParse brokenServer None None storedFruitWorld).
Proof.
  apply (loadExercise_falls_back_to_local fruitParse brokenServer
           (Some "123") (Some "456") storedFruitWorld eq_refl eq_refl).
  intros text doc Hsrv. discriminate Hsrv.
Defined.

Lemma save_then_load_local_witness :
  ∃ b w', saveExercise idsStringify offline fruitExercise
            (Some "123") (Some "456") freshWorld = (inr b, w')
          ∧ (b = false →
             fst (loadExercise fruitParse brokenServer None None w')
             = inr fruitExercise)
          ∧ (b = true → localStorage w' = localStorage freshWorld).
Proof.
  apply (save_then_load_local fruitParse idsStringify brokenServer offline
           fruitExercise (Some "123") (Some "456") freshWorld);
    [reflexivity | done].
Defined.

Example loadExercise_corrupt_local_copy :
  fst (loadExercise fruitParse brokenServer (Some "123") (Some "456")
         {| localStorage := {[ storageKey := "{not json" ]};
            consoleErrors := []; toasts := []; sent := [] |})
  = inl "SyntaxError".
Proof. reflexivity. Qed.

(* --------------------------------------------------------------------- *)
(** *** The save handler and the auto-save effect *)
(* --------------------------------------------------------------------- *)

Lemma presentOrUndefined_truthy c :
  truthy c = true → presentOrUndefined c = c.
Proof.
  destruct c as [v |]; [| done]. simpl. intros Hv.
  apply bool_decide_eq_true in Hv.
  unfold presentOrUndefined, orUndefined. simpl. by rewrite decide_False.
Qed.

Section SavingFacts.
Variable toLowerCase : string → string.
Variable JSON_parse : string → option DragDropExerciseV1.
Variable JSON_stringify : DragDropExerciseV1 → string.
Variable server : Request → GetOutcome.
Variable network : Request → FetchOutcome.

(** X24. An exercise that breaks a validation rule (no zone, no item,
    an item whose correct zone id is empty or names no zone, or two zone
    titles equal in lower case) is not saved: [handleSave] sends no
    request and leaves local storage alone; its only effect is one
    "Validation Failed" notice carrying the first error of the list. *)
Theorem handleSave_invalid_not_saved ex courseId slideId w :
  zones ex = []
  ∨ items ex = []
  ∨ (∃ item, item ∈ items ex
             ∧ (Item.correctZoneId item = ""
                ∨ Item.correctZoneId item ∉ Zone.id <$> zones ex))
  ∨ ¬ NoDup ((λ z, toLowerCase (Zone.title z)) <$> zones ex) →
  ∃ first,
    head (getValidationErrors toLowerCase ex) = Some first
    ∧ handleSave toLowerCase JSON_stringify network ex courseId slideId w
      = (inr (),
         {| localStorage := localStorage w;
            consoleErrors := consoleErrors w;
            toasts := toasts w ++ [validationFailedToast first];
            sent := sent w |}).
Proof.
  clear JSON_parse server. intros Hbad. unfold handleSave.
  destruct (getValidationErrors toLowerCase ex) as [| first rest] eqn:Herr.
  - exfalso. apply validationErrors_nil_iff in Herr as (Hz & Hi & Hit & Ht).
    destruct Hbad as [? | [? | [(item & Hin & Hitem) | ?]]]; try done.
    destruct (Hit item Hin). tauto.
  - by exists first.
Qed.

(** X25. For an exercise without validation errors, [handleSave]
    - without locator: writes the local copy, sends nothing and reports
      "Saved locally (Sandbox Mode)";
    - with locator and an ok answer: leaves the local copy alone and
      reports "Successfully saved to course slide";
    - with locator and a failed request: writes the local copy and raises
      two notices, "Save Failed" and then "Exercise Saved" with "Saved
      locally due to connection issue". *)
Theorem handleSave_valid_outcomes ex courseId slideId w :
  getValidationErrors toLowerCase ex = [] →
  (truthy courseId && truthy slideId = false →
   ∃ w', handleSave toLowerCase JSON_stringify network ex courseId slideId w
         = (inr (), w')
         ∧ localStorage w'
           = <[storageKey := JSON_stringify ex]> (localStorage w)
         ∧ sent w' = sent w
         ∧ toasts w' = toasts w ++ [savedToast false true])
  ∧ (truthy courseId = true → truthy slideId = true →
     network (saveRequest JSON_stringify ex courseId slideId)
     = Responded true →
     ∃ w', handleSave toLowerCase JSON_stringify network ex courseId slideId w
           = (inr (), w')
           ∧ localStorage w' = localStorage w
           ∧ toasts w' = toasts w ++ [savedToast true false])
  ∧ (truthy courseId = true → truthy slideId = true →
     network (saveRequest JSON_stringify ex courseId slideId)
     ≠ Responded true →
     ∃ w', handleSave toLowerCase JSON_stringify network ex courseId slideId w
           = (inr (), w')
           ∧ localStorage w'
             = <[storageKey := JSON_stringify ex]> (localStorage w)
           ∧ toasts w'
             = toasts w ++ [saveFailedToast; savedToast false false]).
Proof.
  intros Hok. unfold handleSave. rewrite Hok. unfold mbind, IO_bind.
  split; [| split].
  - intros Hloc. rewrite saveExercise_sandbox
      by (by rewrite !truthy_presentOrUndefined).
    apply andb_false_iff in Hloc.
    eexists. split; [reflexivity |]. simpl. do 2 (split; [done |]).
    destruct Hloc as [-> | ->]; simpl; [done |]. by rewrite orb_true_r.
  - intros Hc Hs Hnet. rewrite !presentOrUndefined_truthy by done.
    rewrite saveExercise_remote_ok by done.
    eexists. split; [reflexivity |]. simpl. by rewrite Hc, Hs.
  - intros Hc Hs Hnet. rewrite !presentOrUndefined_truthy by done.
    destruct (saveExercise_remote_failed JSON_stringify network ex
                courseId slideId w Hc Hs Hnet) as [msg ->].
    eexists. split; [reflexivity |]. simpl. rewrite Hc, Hs. simpl.
    by rewrite <- app_assoc.
Qed.

(** X26. The auto-save effect skips the exercise that has neither zones
    nor items (so mounting the builder does not overwrite a stored
    exercise); for any other exercise it stores the text, from which a
    load without locator gets the exercise back when [JSON.parse] undoes
    [JSON.stringify] on it. *)
Theorem autoSave_skips_empty_and_round_trips ex w :
  (zones ex = [] → items ex = [] →
   autoSave JSON_stringify ex w = (inr (), w))
  ∧ (zones ex ≠ [] ∨ items ex ≠ [] →
     JSON_parse (JSON_stringify ex) = Some ex →
     JSON_stringify ex ≠ "" →
     fst (loadExercise JSON_parse server None None
            (worldAfter (autoSave JSON_stringify ex w))) = inr ex).
Proof.
  unfold autoSave. split.
  - intros -> ->. simpl. by destruct w.
  - intros Hne Hrt Htext.
    assert (bool_decide (0 < length (zones ex))%nat
            || bool_decide (0 < length (items ex))%nat = true) as ->.
    { apply orb_true_iff.
      destruct Hne as [H | H]; [left | right]; apply bool_decide_eq_true.
      - destruct (zones ex); [done | simpl; lia].
      - destruct (items ex); [done | simpl; lia]. }
    rewrite loadExercise_local by done. simpl.
    rewrite lookup_insert_eq, decide_False by done. by rewrite Hrt.
Qed.
End SavingFacts.

Lemma handleSave_invalid_not_saved_witness :
  ∃ first,
    head (getValidationErrors asciiToLowerCase createEmptyExercise)
    = Some first
    ∧ handleSave asciiToLowerCase idsStringify online createEmptyExercise
        (Some "123") (Some "456") freshWorld
      = (inr (),
         {| localStorage := ∅;
            consoleErrors := [];
            toasts := [validationFailedToast first];
            sent := [] |}).
Proof.
  apply (handleSave_invalid_not_saved asciiToLowerCase idsStringify online
           createEmptyExercise (Some "123") (Some "456") freshWorld).
  left. reflexivity.
Defined.

Lemma handleSave_valid_outcomes_witness :
  ∃ w', handleSave asciiToLowerCase idsStringify offline fruitExercise
          (Some "123") (Some "456") freshWorld = (inr (), w')
        ∧ toasts w' = [saveFailedToast; savedToast false false].
Proof.
  destruct (handleSave_valid_outcomes asciiToLowerCase idsStringify offline
              fruitExercise (Some "123") (Some "456") freshWorld)
    as (_ & _ & H); [by vm_compute |].
  destruct H as (w' & Hrun & _ & Ht); [reflexivity | reflexivity | discriminate |].
  exists w'. split; [exact Hrun | exact Ht].
Defined.

Lemma autoSave_skips_empty_and_round_trips_witness :
  autoSave idsStringify createEmptyExercise storedFruitWorld
  = (inr (), storedFruitWorld)
  ∧ fst (loadExercise fruitParse brokenServer None None
           (worldAfter (autoSave idsStringify fruitExercise freshWorld)))
    = inr fruitExercise.
Proof.
  destruct (autoSave_skips_empty_and_round_trips fruitParse idsStringify
              brokenServer createEmptyExercise storedFruitWorld) as [H1 _].
  destruct (autoSave_skips_empty_and_round_trips fruitParse idsStringify
              brokenServer fruitExercise freshWorld) as [_ H2].
  split.
  - apply H1; reflexivity.
  - apply H2; [by left | reflexivity | done].
Defined.

(* ===================================================================== *)
(** ** Editor dialogs: properties *)
(* ===================================================================== *)

Section EditorFacts.
Variable trim : string → string.
Variable parseInt : string → option Z.
Variable numberToString : Z → string.

Lemma parsePoints_nonzero text : parsePoints parseInt text ≠ 0.
Proof.
  unfold parsePoints. destruct (parseInt text) as [n |]; [| done].
  by case_decide.
Qed.

Lemma submitItem_new_item ei f fresh s item :
  item ∈ items (exercise (submitItem trim parseInt ei f fresh s)) →
  item ∉ items (exercise s) →
  ∃ draft i, itemEditorSave trim parseInt f = Some draft
             ∧ item = Item_withId draft i.
Proof.
  unfold submitItem. intros Hin Hnew.
  destruct (itemEditorSave trim parseInt f) as [draft |]; [| done].
  exists draft. unfold saveItem in Hin.
  destruct ei as [ei |]; simpl in Hin.
  - apply list_elem_of_fmap in Hin as (old & -> & Hold).
    case_decide; [by eexists |]. done.
  - apply elem_of_app in Hin as [Hin | Hin]; [done |].
    apply list_elem_of_singleton in Hin. by eexists.
Qed.

(** X27. Whatever the form holds, an item that the item dialog puts into
    the exercise (as a new item or in place of an edited one) has a
    non-blank text, a non-empty correct zone id, a point value that is
    present and not 0, and no alternate zones: the dialog never writes
    [altCorrectZoneIds], so editing an item discards them. *)
Theorem submitItem_shape ei f fresh s item :
  item ∈ items (exercise (submitItem trim parseInt ei f fresh s)) →
  item ∉ items (exercise s) →
  Item.text item = trim (if_text f)
  ∧ Item.text item ≠ ""
  ∧ Item.correctZoneId item = if_correctZoneId f
  ∧ Item.correctZoneId item ≠ ""
  ∧ (∃ p, Item.points item = Some p ∧ p ≠ 0 ∧ pointsOf item = p)
  ∧ Item.altCorrectZoneIds item = None.
Proof.
  intros Hin Hnew.
  destruct (submitItem_new_item ei f fresh s item Hin Hnew)
    as (draft & i & Hsave & ->).
  unfold itemEditorSave in Hsave. case_decide as Hblank; [done |].
  injection Hsave as <-. simpl.
  split; [done |]. split; [tauto |]. split; [done |]. split; [tauto |].
  split; [| done].
  exists (parsePoints parseInt (if_points f)).
  split; [done |]. split; [apply parsePoints_nonzero |].
  unfold pointsOf. simpl. rewrite decide_False; [done |].
  apply parsePoints_nonzero.
Qed.

(** After the item dialog has written an item, only its one correct
    zone counts for it: the item passes the correctness test exactly when
    its placement names the zone chosen in the form. *)
Lemma submitItem_only_primary_zone_counts ei f fresh s item ps :
  item ∈ items (exercise (submitItem trim parseInt ei f fresh s)) →
  item ∉ items (exercise s) →
  isCorrect ps item ↔ placedZone ps item = Some (if_correctZoneId f).
Proof.
  intros Hin Hnew.
  destruct (submitItem_new_item ei f fresh s item Hin Hnew)
    as (draft & i & Hsave & ->).
  unfold itemEditorSave in Hsave. case_decide as Hblank; [done |].
  injection Hsave as <-. rewrite isCorrect_spec. simpl.
  split; [| by left]. intros [H | (alt & Halt & _)]; done.
Qed.


Lemma submitZone_new_zone ez f fresh s zone :
  zone ∈ zones (exercise (submitZone trim ez f fresh s)) →
  zone ∉ zones (exercise s) →
  ∃ draft i, zoneEditorSave trim f = Some draft
             ∧ zone = Zone_withId draft i.
Proof.
  unfold submitZone. intros Hin Hnew.
  destruct (zoneEditorSave trim f) as [draft |]; [| done].
  exists draft. unfold saveZone in Hin.
  destruct ez as [ez |]; simpl in Hin.
  - apply list_elem_of_fmap in Hin as (old & -> & Hold).
    case_decide; [by eexists |]. done.
  - apply elem_of_app in Hin as [Hin | Hin]; [done |].
    apply list_elem_of_singleton in Hin. by eexists.
Qed.

(** X29. The zone dialog: a zone it writes has a non-blank title and no
    [accepts] tags (editing a zone discards them); a blank title changes
    nothing; an edit keeps the sequence of zone ids, the items and the
    placements; an addition appends one zone carrying the fresh id. *)
Theorem submitZone_effect ez f fresh s :
  (∀ zone, zone ∈ zones (exercise (submitZone trim ez f fresh s)) →
           zone ∉ zones (exercise s) →
           Zone.title zone = trim (zf_title f)
           ∧ Zone.title zone ≠ ""
           ∧ Zone.accepts zone = None)
  ∧ (trim (zf_title f) = "" → submitZone trim ez f fresh s = s)
  ∧ items (exercise (submitZone trim ez f fresh s)) = items (exercise s)
  ∧ placements (submitZone trim ez f fresh s) = placements s
  ∧ (is_Some ez →
     Zone.id <$> zones (exercise (submitZone trim ez f fresh s))
     = Zone.id <$> zones (exercise s))
  ∧ (ez = None → trim (zf_title f) ≠ "" →
     Zone.id <$> zones (exercise (submitZone trim ez f fresh s))
     = (Zone.id <$> zones (exercise s)) ++ [fresh]).
Proof.
  split; [| split; [| split; [| split; [| split]]]].
  - intros zone Hin Hnew.
    destruct (submitZone_new_zone ez f fresh s zone Hin Hnew)
      as (draft & i & Hsave & ->).
    unfold zoneEditorSave in Hsave. case_decide as Hblank; [done |].
    by injection Hsave as <-.
  - intros Hblank. unfold submitZone, zoneEditorSave.
    by rewrite decide_True.
  - unfold submitZone. by destruct (zoneEditorSave trim f).
  - unfold submitZone. by destruct (zoneEditorSave trim f).
  - intros [z ->]. unfold submitZone.
    destruct (zoneEditorSave trim f) as [draft |]; [| done].
    simpl. rewrite <- list_fmap_compose.
    apply list_fmap_ext. intros _ zo _. simpl. by case_decide.
  - intros -> Hne. unfold submitZone, zoneEditorSave.
    rewrite decide_False by done. simpl. by rewrite fmap_app.
Qed.
End EditorFacts.

Lemma submitItem_shape_witness :
  Item.altCorrectZoneIds
    (Item.mk "Kiwi" "Kiwi" None "Z1" None (Some 2) None) = None.
Proof.
  apply (submitItem_shape noTrim digitParseInt (Some iKiwiAlt)
           (openItemEditor digitToString (Some iKiwiAlt)) "fresh"
           {| exercise := kiwiExercise; placements := [] |}
           (Item.mk "Kiwi" "Kiwi" None "Z1" None (Some 2) None));
    compute_done.
Defined.

Lemma submitItem_only_primary_zone_counts_witness :
  isCorrect [ {| itemId := "Kiwi"; zoneId := Some "Z2" |} ]
            (Item.mk "Kiwi" "Kiwi" None "Z1" None (Some 2) None)
  ↔ placedZone [ {| itemId := "Kiwi"; zoneId := Some "Z2" |} ]
               (Item.mk "Kiwi" "Kiwi" None "Z1" None (Some 2) None)
    = Some "Z1".
Proof.
  apply (submitItem_only_primary_zone_counts noTrim digitParseInt
           (Some iKiwiAlt) (openItemEditor digitToString (Some iKiwiAlt))
           "fresh" {| exercise := kiwiExercise; placements := [] |});
    compute_done.
Defined.


(** Before the edit Kiwi scores in its alternate zone; after reopening
    and saving it no longer does. *)
Example edit_discards_alternates :
  isCorrect [ {| itemId := "Kiwi"; zoneId := Some "Z2" |} ] iKiwiAlt = true
  ∧ (isCorrect [ {| itemId := "Kiwi"; zoneId := Some "Z2" |} ]
       <$> items (exercise
                    (submitItem noTrim digitParseInt (Some iKiwiAlt)
                       (openItemEditor digitToString (Some iKiwiAlt)) "fresh"
                       {| exercise := kiwiExercise; placements := [] |})))
    = [false; false].
Proof. by vm_compute. Qed.

Lemma submitZone_effect_witness :
  Zone.id <$> zones (exercise (submitZone noTrim (Some zFruits)
                                 {| zf_title := "Berries";
                                    zf_description := "";
                                    zf_color := "" |} "fresh" placedBoth))
  = ["Z1"; "Z2"].
Proof.
  destruct (submitZone_effect noTrim (Some zFruits)
              {| zf_title := "Berries"; zf_description := ""; zf_color := "" |}
              "fresh" placedBoth) as (_ & _ & _ & _ & H & _).
  apply H. by eexists.
Defined.

(* ===================================================================== *)
(** ** The points badge *)
(* ===================================================================== *)

(** X30. An item shows its points badge exactly when it is worth
    something other than 1 point in the score: no badge for an absent,
    zero or unit point value. *)
Theorem points_badge_iff item :
  showsPointsBadge item ↔ pointsOf item ≠ 1.
Proof.
  unfold showsPointsBadge, pointsOf.
  destruct (Item.points item) as [p |]; [| by split].
  rewrite andb_True, !bool_decide_spec.
  case_decide as Hz; [subst p |]; split; try done; tauto.
Qed.
